(** * agrmt: van der Eijk's agreement A for ordered rating scales

    A verification development for [src/agrmt/agreement.py]: the helper
    [_pattern_agreement] (agreement of one binary pattern vector) and the
    public [agreement] (layer decomposition of a frequency vector).

    The Python code computes in IEEE binary64.  Three embeddings of the same
    code are given:

    - [F64]: every arithmetic operation is the binary64 operation of
      [PrimFloat] (round to nearest, ties to even), which is what the
      interpreter executes.  It is evaluated at concrete inputs, and what it
      raises is characterised in general.
    - [Rounded]: every arithmetic operation is the exact operation followed
      by a rounding, of which only what IEEE 754 guarantees of rounding to
      nearest is assumed ([ieee]).  What is said of the floats that the code
      returns, on all inputs, is proved for this semantics.
    - [Exact]: no operation rounds.  Finite values are rationals kept in
      lowest terms, and the non-finite values that NumPy produces on a
      division by zero (infinities and NaN) are explicit.  It serves where
      rounding does not bear on the statement: the counters of the helper,
      the pattern vectors it is called on, what is raised, whether a value
      is a number, and the formula that the value of the helper rounds. *)

From Stdlib Require Import String Qround Qpower.
From Stdlib Require Import ZArith QArith Qreduction List Bool Lia Lqa.
From Stdlib Require Import PrimFloat Uint63 FloatOps SpecFloat.
From Stdlib Require Import Permutation.
Import ListNotations.

Set Implicit Arguments.

(** ** Exceptions and results *)

(** A Python exception: its class and its message.  The two functions
    raise [ValueError] only (lines 36, 113, 116 and 119), and so does NumPy
    when [np.max] or [np.min] is applied to an empty array; Python raises
    [ZeroDivisionError] when an [int] is divided by zero (line 58).
    [TypeError] is the built-in class of that name, which nothing here
    raises. *)
Inductive error : Type :=
| ValueError (msg : string)
| TypeError (msg : string)
| ZeroDivisionError (msg : string).

(** The [ValueError] of the helper (line 36), and the one of [np.max] on an
    empty array. *)
Abbreviation InvalidPatternError :=
  (ValueError "Input is not a pattern vector (only 0 and 1 are allowed).").
Abbreviation ZeroSizeError :=
  (ValueError
     "zero-size array to reduction operation maximum which has no identity").

Inductive result (A : Type) : Type :=
| Ok (a : A)
| Err (e : error).
Arguments Err {A} e.

Definition bind {A B : Type} (x : result A) (f : A -> result B) : result B :=
  match x with
  | Ok a => f a
  | Err e => Err e
  end.

Definition rmap {A B : Type} (f : A -> B) (x : result A) : result B :=
  bind x (fun a => Ok (f a)).

Declare Scope result_scope.
Delimit Scope result_scope with result.
Notation "x <- c ;; k" := (bind c (fun x => k))
  (at level 61, c at next level, right associativity) : result_scope.

(** ** Arrays *)

(** What [np.asarray] yields: an array whose dtype is an integer type, or an
    array of another dtype (a list holding a float, or no element at all,
    becomes a float64 array). *)
Inductive ndarray : Type :=
| IntArray (l : list Z)
| FloatArray (l : list Q).

Definition len (v : ndarray) : nat :=
  match v with
  | IntArray l => length l
  | FloatArray l => length l
  end.

(** [np.issubdtype(v.dtype, np.integer)] *)
Definition is_integer_dtype (v : ndarray) : bool :=
  match v with
  | IntArray _ => true
  | FloatArray _ => false
  end.

(** [np.max] and [np.min] of an integer array; [None] on an empty one, where
    NumPy raises. *)
Definition np_max (l : list Z) : option Z :=
  match l with
  | [] => None
  | x :: t => Some (fold_left Z.max t x)
  end.

Definition np_min (l : list Z) : option Z :=
  match l with
  | [] => None
  | x :: t => Some (fold_left Z.min t x)
  end.

(** [np.sum] *)
Definition np_sum (l : list Z) : Z := fold_left Z.add l 0%Z.

(** [range(a, b)] *)
Definition range (a b : nat) : list nat := seq a (b - a).

(** [p[i]] for an index inside the array *)
Definition item (p : list Z) (i : nat) : Z := nth i p 0%Z.

(** ** Triplet counting (lines 41 to 52) *)

(** The body of the innermost loop: the three [if]s of lines 47 to 52 on the
    pair of counters [(tdu, tu)]. *)
Definition triplet_step (p : list Z) (i j m : nat) (c : Z * Z) : Z * Z :=
  let '(tdu, tu) := c in
  let tdu := if (item p i =? 1)%Z && (item p j =? 0)%Z && (item p m =? 1)%Z
             then (tdu + 1)%Z else tdu in
  let tu := if (item p i =? 1)%Z && (item p j =? 1)%Z && (item p m =? 0)%Z
            then (tu + 1)%Z else tu in
  let tu := if (item p i =? 0)%Z && (item p j =? 1)%Z && (item p m =? 1)%Z
            then (tu + 1)%Z else tu in
  (tdu, tu).

(** The three nested [for] loops, from [tdu = 0] and [tu = 0]. *)
Definition count_triplets (p : list Z) : Z * Z :=
  let k := length p in
  fold_left (fun c i =>
    fold_left (fun c j =>
      fold_left (fun c m => triplet_step p i j m c)
                (range (j + 1) k) c)
              (range (i + 1) (k - 1)) c)
            (range 0 (k - 2)) (0%Z, 0%Z).

(** ** Pattern vectors *)

(** A pattern vector: every entry is 0 or 1. *)
Definition binary (p : list Z) : Prop := Forall (fun x => x = 0 \/ x = 1)%Z p.

(** The sum of [f] over a list. *)
Definition zsum {A : Type} (f : A -> Z) (l : list A) : Z :=
  fold_right (fun x acc => (f x + acc)%Z) 0%Z l.

Definition b2z (b : bool) : Z := if b then 1%Z else 0%Z.

(** The tests of lines 47, 49 and 51. *)
Definition is101 (p : list Z) (i j m : nat) : bool :=
  (item p i =? 1)%Z && (item p j =? 0)%Z && (item p m =? 1)%Z.
Definition is110 (p : list Z) (i j m : nat) : bool :=
  (item p i =? 1)%Z && (item p j =? 1)%Z && (item p m =? 0)%Z.
Definition is011 (p : list Z) (i j m : nat) : bool :=
  (item p i =? 0)%Z && (item p j =? 1)%Z && (item p m =? 1)%Z.

Definition bimodal (p : list Z) (i j m : nat) : Z := b2z (is101 p i j m).
Definition unimodal (p : list Z) (i j m : nat) : Z :=
  b2z (is110 p i j m || is011 p i j m).

(** The sum of [f] over the triples the three loops visit. *)
Definition loop_sum (k : nat) (f : nat -> nat -> nat -> Z) : Z :=
  zsum (fun i =>
    zsum (fun j =>
      zsum (fun m => f i j m) (range (j + 1) k))
         (range (i + 1) (k - 1)))
       (range 0 (k - 2)).

(** ** The triples of the specification *)

(** All index triples over [k] positions, and those with [i < j < m]. *)
Definition cube (k : nat) : list (nat * nat * nat) :=
  flat_map (fun i =>
    flat_map (fun j => map (fun m => (i, j, m)) (seq 0 k)) (seq 0 k))
    (seq 0 k).

Definition ordered (t : nat * nat * nat) : bool :=
  let '(i, j, m) := t in (i <? j)%nat && (j <? m)%nat.

Definition triples (k : nat) : list (nat * nat * nat) := filter ordered (cube k).

(** The triple [t] of positions of [p] shows the pattern [(a, b, c)]. *)
Definition matches (p : list Z) (a b c : Z) (t : nat * nat * nat) : bool :=
  let '(i, j, m) := t in
  (item p i =? a)%Z && (item p j =? b)%Z && (item p m =? c)%Z.

(** The counters as the specification defines them: the number of ordered
    triples matching (1,0,1), and of those matching (1,1,0) or (0,1,1). *)
Definition spec_T_du (p : list Z) : Z :=
  Z.of_nat (length (filter (matches p 1 0 1) (triples (length p)))).

Definition spec_T_u (p : list Z) : Z :=
  Z.of_nat (length (filter (fun t => matches p 1 1 0 t || matches p 0 1 1 t)
                           (triples (length p)))).

(** ** Exact arithmetic *)

Module Exact.

(** A value of a float variable when no operation rounds: a rational, or
    one of the three non-finite values.  Zero carries no sign; the code
    never divides by a negative zero. *)
Inductive fval : Type :=
| Fin (q : Q)
| PInf
| NInf
| NaN.

(** Finite results are kept in lowest terms, so that equal values are equal
    terms. *)
Definition fin (q : Q) : fval := Fin (Qred q).

Definition of_int (z : Z) : fval := Fin (inject_Z z).

Definition is_zero (q : Q) : bool := Qeq_bool q 0.
Definition is_neg (q : Q) : bool := negb (Qle_bool 0 q).

Definition fadd (x y : fval) : fval :=
  match x, y with
  | NaN, _ | _, NaN => NaN
  | Fin a, Fin b => fin (a + b)
  | PInf, NInf | NInf, PInf => NaN
  | PInf, _ | _, PInf => PInf
  | NInf, _ | _, NInf => NInf
  end.

Definition fsub (x y : fval) : fval :=
  match x, y with
  | NaN, _ | _, NaN => NaN
  | Fin a, Fin b => fin (a - b)
  | PInf, PInf | NInf, NInf => NaN
  | PInf, _ | _, NInf => PInf
  | NInf, _ | _, PInf => NInf
  end.

(** An infinity times a finite factor [q]. *)
Definition inf_times (positive : bool) (q : Q) : fval :=
  if is_zero q then NaN
  else if xorb positive (is_neg q) then PInf else NInf.

Definition fmul (x y : fval) : fval :=
  match x, y with
  | NaN, _ | _, NaN => NaN
  | Fin a, Fin b => fin (a * b)
  | PInf, Fin q | Fin q, PInf => inf_times true q
  | NInf, Fin q | Fin q, NInf => inf_times false q
  | PInf, PInf | NInf, NInf => PInf
  | PInf, NInf | NInf, PInf => NInf
  end.

(** NumPy's true division: a division by zero yields an infinity, or NaN
    for 0/0, and raises nothing. *)
Definition fdiv (x y : fval) : fval :=
  match x, y with
  | NaN, _ | _, NaN => NaN
  | Fin a, Fin b =>
      if is_zero b
      then (if is_zero a then NaN else if is_neg a then NInf else PInf)
      else fin (a / b)
  | Fin _, _ => Fin 0
  | PInf, Fin b => if is_neg b then NInf else PInf
  | NInf, Fin b => if is_neg b then PInf else NInf
  | _, _ => NaN
  end.

(** [np.isnan] *)
Definition isnan (x : fval) : bool :=
  match x with
  | NaN => true
  | _ => false
  end.

(** True division of two Python [int]s (line 58). *)
Definition int_truediv (a b : Z) : result fval :=
  if (b =? 0)%Z then Err (ZeroDivisionError "division by zero")
  else Ok (fin (inject_Z a / inject_Z b)).

(** Equation (2), lines 55 to 58. *)
Definition equation2 (k tu tdu : Z) : result fval :=
  if (tu + tdu =? 0)%Z then Ok (Fin 0)
  else int_truediv ((k - 2) * tu - (k - 1) * tdu) ((k - 2) * (tu + tdu)).

(** The value of [a] after line 61, before the edge cases. *)
Definition raw_agreement (p : list Z) : result fval :=
  let k := Z.of_nat (length p) in
  let '(tdu, tu) := count_triplets p in
  (u <- equation2 k tu tdu ;;
   let s := np_sum p in
   Ok (fmul u (fsub (Fin 1) (fdiv (of_int (s - 1)) (of_int (k - 1))))))%result.

Definition _pattern_agreement (p : list Z) : result fval :=
  match np_max p with
  | None => Err ZeroSizeError
  | Some mx =>
      if (mx >? 1)%Z then Err InvalidPatternError
      else
        (a <- raw_agreement p ;;
         let a := if isnan a then Fin 0 else a in
         let a := if (np_sum p =? 1)%Z then Fin 1 else a in
         Ok a)%result
  end.

(** *** The layer loop of [agreement] (lines 128 to 143) *)

(** The float copy [r] of an integer vector holds whole numbers, and the
    loop only subtracts whole numbers from them: with exact arithmetic they
    stay in [Z].  [calls] is not a variable of the program: it logs the
    pattern vectors handed to [_pattern_agreement], latest first (a call that
    raises ends the run, so the log of a run that returns is complete). *)
Record state : Type := mkState {
  aa : fval;
  r : list Z;
  calls : list (list Z)
}.

(** [(r != 0).astype(int)] *)
Definition pattern_of (r : list Z) : list Z :=
  map (fun x => if (x =? 0)%Z then 0%Z else 1%Z) r.

(** [np.min(r[nonzero_mask]) if np.any(nonzero_mask) else 0] *)
Definition min_positive (r : list Z) : Z :=
  match np_min (filter (fun x => (0 <? x)%Z) r) with
  | Some m => m
  | None => 0%Z
  end.

(** [r - layer], element by element *)
Definition subtract (r layer : list Z) : list Z :=
  map (fun xy => (fst xy - snd xy)%Z) (combine r layer).

Inductive outcome : Type :=
| Break
| Next (st : state)
| Raise (e : error).

(** One pass through the loop body; [n] is the number of cases. *)
Definition body (n : Z) (st : state) : outcome :=
  let p := pattern_of (r st) in
  match np_max p with
  | None => Raise ZeroSizeError
  | Some mx =>
      if (mx =? 0)%Z then Break
      else
        match _pattern_agreement p with
        | Err e => Raise e
        | Ok a =>
            let m := min_positive (r st) in
            let layer := map (fun x => (x * m)%Z) p in
            let w := fdiv (of_int (np_sum layer)) (of_int n) in
            Next {| aa := fadd (aa st) (fmul w a);
                    r := subtract (r st) layer;
                    calls := p :: calls st |}
        end
  end.

(** [for _ in range(k)], with [k] passes left. *)
Fixpoint loop (k : nat) (n : Z) (st : state) : result state :=
  match k with
  | O => Ok st
  | S k' =>
      match body n st with
      | Break => Ok st
      | Next st' => loop k' n st'
      | Raise e => Err e
      end
  end.

(** [agreement] up to its [return], with the final state of the loop. *)
Definition agreement_run (v : ndarray) : result state :=
  if (len v <? 3)%nat
  then Err (ValueError "Length of vector < 3, agreement A is not defined.")
  else
    match v with
    | FloatArray _ => Err (ValueError "Frequency vector must contain integers.")
    | IntArray l =>
        match np_min l with
        | None =>
            Err (ValueError
                   "zero-size array to reduction operation minimum which has no identity")
        | Some mn =>
            if (mn <? 0)%Z
            then Err (ValueError "Negative values found in frequency vector.")
            else loop (length l) (np_sum l)
                      {| aa := Fin 0; r := l; calls := [] |}
        end
    end.

Definition agreement (v : ndarray) : result fval :=
  rmap aa (agreement_run v).

End Exact.

(** ** The order of summation of [np.sum] *)

(** [np.sum] of a float64 array is NumPy's pairwise summation, added to
    the initial value 0.0.  Fewer than 8 elements are added from the left.
    Up to 128 elements are added into 8 accumulators, element [i] into
    accumulator [i mod 8], for as long as 8 elements are left; the
    accumulators are then added in pairs, and the elements left over are
    added to that sum one by one.  A longer array is split near its middle,
    at a multiple of 8, and the sums of the two parts are added. *)
Section Summation.
Variable T : Type.
Variable add : T -> T -> T.
Variable zero : T.

Definition sequential (acc : T) (l : list T) : T := fold_left add l acc.

Fixpoint accumulate8 (fuel : nat) (acc l : list T) : list T * list T :=
  match fuel with
  | O => (acc, l)
  | S fuel' =>
      if (length l <? 8)%nat then (acc, l)
      else accumulate8 fuel'
             (map (fun xy => add (fst xy) (snd xy)) (combine acc (firstn 8 l)))
             (skipn 8 l)
  end.

Definition unrolled (l : list T) : T :=
  let '(acc, rest) := accumulate8 (length l) (firstn 8 l) (skipn 8 l) in
  let r := fun j => nth j acc zero in
  sequential
    (add (add (add (r 0%nat) (r 1%nat)) (add (r 2%nat) (r 3%nat)))
         (add (add (r 4%nat) (r 5%nat)) (add (r 6%nat) (r 7%nat))))
    rest.

Fixpoint pairwise_sum (fuel : nat) (l : list T) : T :=
  let n := length l in
  if (n <? 8)%nat then sequential zero l
  else if (n <=? 128)%nat then unrolled l
  else
    match fuel with
    | O => unrolled l
    | S fuel' =>
        let n2 := (n / 2 - (n / 2) mod 8)%nat in
        add (pairwise_sum fuel' (firstn n2 l)) (pairwise_sum fuel' (skipn n2 l))
    end.

Definition np_add_reduce (l : list T) : T :=
  add zero (pairwise_sum (length l) l).

End Summation.

(** ** Binary64 arithmetic *)

Module F64.

(** An entry of an integer array as a float64 ([astype(float)]); the
    conversion rounds to nearest above 2^53.  An int64 is below 2^63; an
    entry of a uint64 array can reach 2^64 - 1, and from 2^63 on it is
    converted as twice the conversion of its half, the bit that halving
    loses being kept as the lowest bit, which rounds the same way. *)
Definition of_nonneg (z : Z) : float :=
  if (z <? 2 ^ 63)%Z then PrimFloat.of_uint63 (Uint63.of_Z z)
  else PrimFloat.mul 2%float
         (PrimFloat.of_uint63
            (Uint63.of_Z (Z.lor (Z.shiftr z 1) (Z.land z 1)))).

(** A small signed integer as a float64. *)
Definition of_int (z : Z) : float :=
  if (z <? 0)%Z then PrimFloat.opp (of_nonneg (- z)) else of_nonneg z.

(** [np.sum] of a float64 array *)
Definition np_sum_f (l : list float) : float :=
  np_add_reduce PrimFloat.add 0%float l.

(** [np.min] of a float array without NaN, [None] on an empty one. *)
Definition np_min_f (l : list float) : option float :=
  match l with
  | [] => None
  | x :: t => Some (fold_left (fun a y => if PrimFloat.ltb y a then y else a) t x)
  end.

(** True division of two Python [int]s (line 58).  Python rounds the exact
    quotient once; below 2^53 both operands convert exactly, and the
    float64 division is that rounding. *)
Definition int_truediv (a b : Z) : result float :=
  if (b =? 0)%Z then Err (ZeroDivisionError "division by zero")
  else Ok (PrimFloat.div (of_int a) (of_int b)).

Definition equation2 (k tu tdu : Z) : result float :=
  if (tu + tdu =? 0)%Z then Ok 0%float
  else int_truediv ((k - 2) * tu - (k - 1) * tdu) ((k - 2) * (tu + tdu)).

Definition raw_agreement (p : list Z) : result float :=
  let k := Z.of_nat (length p) in
  let '(tdu, tu) := count_triplets p in
  (u <- equation2 k tu tdu ;;
   let s := np_sum p in
   Ok (PrimFloat.mul u
         (PrimFloat.sub 1%float
            (PrimFloat.div (of_int (s - 1)) (of_int (k - 1))))))%result.

Definition _pattern_agreement (p : list Z) : result float :=
  match np_max p with
  | None => Err ZeroSizeError
  | Some mx =>
      if (mx >? 1)%Z then Err InvalidPatternError
      else
        (a <- raw_agreement p ;;
         let a := if PrimFloat.is_nan a then 0%float else a in
         let a := if (np_sum p =? 1)%Z then 1%float else a in
         Ok a)%result
  end.

Record state : Type := mkState {
  aa : float;
  r : list float
}.

Definition pattern_of (r : list float) : list Z :=
  map (fun x => if PrimFloat.eqb x 0%float then 0%Z else 1%Z) r.

Definition min_positive (r : list float) : float :=
  match np_min_f (filter (fun x => PrimFloat.ltb 0%float x) r) with
  | Some m => m
  | None => 0%float
  end.

Definition subtract (r layer : list float) : list float :=
  map (fun xy => PrimFloat.sub (fst xy) (snd xy)) (combine r layer).

Inductive outcome : Type :=
| Break
| Next (st : state)
| Raise (e : error).

Definition body (n : float) (st : state) : outcome :=
  let p := pattern_of (r st) in
  match np_max p with
  | None => Raise ZeroSizeError
  | Some mx =>
      if (mx =? 0)%Z then Break
      else
        match _pattern_agreement p with
        | Err e => Raise e
        | Ok a =>
            let m := min_positive (r st) in
            let layer := map (fun x => PrimFloat.mul (of_int x) m) p in
            let w := PrimFloat.div (np_sum_f layer) n in
            Next {| aa := PrimFloat.add (aa st) (PrimFloat.mul w a);
                    r := subtract (r st) layer |}
        end
  end.

Fixpoint loop (k : nat) (n : float) (st : state) : result state :=
  match k with
  | O => Ok st
  | S k' =>
      match body n st with
      | Break => Ok st
      | Next st' => loop k' n st'
      | Raise e => Err e
      end
  end.

(** [agreement] on int64 data; the elements are below 2^63. *)
Definition agreement (v : ndarray) : result float :=
  if (len v <? 3)%nat
  then Err (ValueError "Length of vector < 3, agreement A is not defined.")
  else
    match v with
    | FloatArray _ => Err (ValueError "Frequency vector must contain integers.")
    | IntArray l =>
        match np_min l with
        | None =>
            Err (ValueError
                   "zero-size array to reduction operation minimum which has no identity")
        | Some mn =>
            if (mn <? 0)%Z
            then Err (ValueError "Negative values found in frequency vector.")
            else
              let v := map of_nonneg l in
              rmap aa (loop (length v) (np_sum_f v) {| aa := 0%float; r := v |})
        end
    end.

End F64.

(** ** Rounded arithmetic *)

(** The arithmetic of the interpreter, as far as the code depends on it.
    [rnd] is the rounding of a real number to a float64: every float
    operation of the code returns the rounding of its exact result, and the
    conversion of an integer to float64 is the rounding of the integer.
    [fsum] is [np.sum] on a float64 array. *)
Record arithmetic : Type := mkArithmetic {
  rnd : Q -> Q;
  fsum : list Q -> Q
}.

(** The exact sum of a list of numbers. *)
Definition qsum (l : list Q) : Q := fold_right Qplus 0 l.

(** [sums_to A l x]: [x] is obtained by adding the elements of [l], each
    one once, in some order and grouping, every addition being rounded.  An
    empty sum is the initial value 0.0.  This covers the summation from the
    left and the pairwise summation of NumPy alike. *)
Inductive sums_to (A : arithmetic) : list Q -> Q -> Prop :=
| sums_nil : sums_to A [] 0
| sums_one (x : Q) : sums_to A [x] x
| sums_add (l l1 l2 : list Q) (x y : Q) :
    Permutation l (l1 ++ l2) -> sums_to A l1 x -> sums_to A l2 y ->
    sums_to A l (rnd A (x + y)).

(** What IEEE 754 guarantees of rounding to nearest in binary64, and what
    is used of it: the rounding of a real number is one float, a float
    rounds to itself, rounding keeps the order, and the whole numbers up to
    2^53 are floats.  An array is summed by rounded additions of its
    elements.  The values of the code stay far below the largest float
    (an entry is below 2^64) and nothing overflows. *)
Record ieee (A : arithmetic) : Prop := mkIeee {
  rnd_eq : forall a b, a == b -> rnd A a = rnd A b;
  rnd_idem : forall a, rnd A (rnd A a) == rnd A a;
  rnd_mono : forall a b, a <= b -> rnd A a <= rnd A b;
  rnd_int : forall z, (Z.abs z <= 2 ^ 53)%Z ->
                      rnd A (inject_Z z) == inject_Z z;
  fsum_order : forall l, sums_to A l (fsum A l)
}.

Module Rounded.

(** A value of a float variable: a rational, or one of the three
    non-finite values.  Zero carries no sign; the code never divides by a
    negative zero. *)
Inductive fval : Type :=
| Fin (q : Q)
| PInf
| NInf
| NaN.

(** The comparisons [a < b], [q == 0], [q < 0] and [q > 0] of floats. *)
Definition ltb (a b : Q) : bool := negb (Qle_bool b a).
Definition is_zero (q : Q) : bool := Qeq_bool q 0.
Definition is_neg (q : Q) : bool := ltb q 0.
Definition is_pos (q : Q) : bool := ltb 0 q.

(** An infinity times a finite factor [q]. *)
Definition inf_times (positive : bool) (q : Q) : fval :=
  if is_zero q then NaN
  else if xorb positive (is_neg q) then PInf else NInf.

(** [np.isnan] *)
Definition isnan (x : fval) : bool :=
  match x with
  | NaN => true
  | _ => false
  end.

Record state : Type := mkState {
  aa : fval;
  r : list Q;
  calls : list (list Z)
}.

Inductive outcome : Type :=
| Break
| Next (st : state)
| Raise (e : error).

(** [(r != 0).astype(int)] *)
Definition pattern_of (r : list Q) : list Z :=
  map (fun x => if is_zero x then 0%Z else 1%Z) r.

(** [np.min] of a float array, [None] on an empty one. *)
Definition np_min_q (l : list Q) : option Q :=
  match l with
  | [] => None
  | x :: t => Some (fold_left (fun a y => if ltb y a then y else a) t x)
  end.

(** [np.min(r[nonzero_mask]) if np.any(nonzero_mask) else 0] *)
Definition min_positive (r : list Q) : Q :=
  match np_min_q (filter is_pos r) with
  | Some m => m
  | None => 0
  end.

Section Code.
Variable A : arithmetic.

Definition fin (q : Q) : fval := Fin (rnd A q).

(** An integer converted to float64. *)
Definition of_int (z : Z) : Q := rnd A (inject_Z z).

Definition fadd (x y : fval) : fval :=
  match x, y with
  | NaN, _ | _, NaN => NaN
  | Fin a, Fin b => fin (a + b)
  | PInf, NInf | NInf, PInf => NaN
  | PInf, _ | _, PInf => PInf
  | NInf, _ | _, NInf => NInf
  end.

Definition fsub (x y : fval) : fval :=
  match x, y with
  | NaN, _ | _, NaN => NaN
  | Fin a, Fin b => fin (a - b)
  | PInf, PInf | NInf, NInf => NaN
  | PInf, _ | _, NInf => PInf
  | NInf, _ | _, PInf => NInf
  end.

Definition fmul (x y : fval) : fval :=
  match x, y with
  | NaN, _ | _, NaN => NaN
  | Fin a, Fin b => fin (a * b)
  | PInf, Fin q | Fin q, PInf => inf_times true q
  | NInf, Fin q | Fin q, NInf => inf_times false q
  | PInf, PInf | NInf, NInf => PInf
  | PInf, NInf | NInf, PInf => NInf
  end.

(** NumPy's true division: a division by zero yields an infinity, or NaN
    for 0/0, and raises nothing. *)
Definition fdiv (x y : fval) : fval :=
  match x, y with
  | NaN, _ | _, NaN => NaN
  | Fin a, Fin b =>
      if is_zero b
      then (if is_zero a then NaN else if is_neg a then NInf else PInf)
      else fin (a / b)
  | Fin _, _ => Fin 0
  | PInf, Fin b => if is_neg b then NInf else PInf
  | NInf, Fin b => if is_neg b then PInf else NInf
  | _, _ => NaN
  end.

(** True division of two Python [int]s (line 58): the exact quotient,
    rounded once. *)
Definition int_truediv (a b : Z) : result fval :=
  if (b =? 0)%Z then Err (ZeroDivisionError "division by zero")
  else Ok (fin (inject_Z a / inject_Z b)).

(** Equation (2), lines 55 to 58. *)
Definition equation2 (k tu tdu : Z) : result fval :=
  if (tu + tdu =? 0)%Z then Ok (Fin 0)
  else int_truediv ((k - 2) * tu - (k - 1) * tdu) ((k - 2) * (tu + tdu)).

(** The value of [a] after line 61, before the edge cases: the two
    integers [s - 1] and [k - 1] are converted, and the quotient, the
    difference and the product are each rounded. *)
Definition raw_agreement (p : list Z) : result fval :=
  let k := Z.of_nat (length p) in
  let '(tdu, tu) := count_triplets p in
  (u <- equation2 k tu tdu ;;
   let s := np_sum p in
   Ok (fmul u (fsub (Fin 1)
                    (fdiv (Fin (of_int (s - 1))) (Fin (of_int (k - 1)))))))%result.

Definition _pattern_agreement (p : list Z) : result fval :=
  match np_max p with
  | None => Err ZeroSizeError
  | Some mx =>
      if (mx >? 1)%Z then Err InvalidPatternError
      else
        (a <- raw_agreement p ;;
         let a := if isnan a then Fin 0 else a in
         let a := if (np_sum p =? 1)%Z then Fin 1 else a in
         Ok a)%result
  end.

(** [r - layer], element by element, each difference rounded *)
Definition subtract (r layer : list Q) : list Q :=
  map (fun xy => rnd A (fst xy - snd xy)) (combine r layer).

(** One pass through the loop body (lines 129 to 143); [n] is the float
    [np.sum(v)].  The layer [p * m] is the product of the converted pattern
    and the minimum, its sum is [np.sum], and the remainder stays an array
    of floats. *)
Definition body (n : Q) (st : state) : outcome :=
  let p := pattern_of (r st) in
  match np_max p with
  | None => Raise ZeroSizeError
  | Some mx =>
      if (mx =? 0)%Z then Break
      else
        match _pattern_agreement p with
        | Err e => Raise e
        | Ok a =>
            let m := min_positive (r st) in
            let layer := map (fun x => rnd A (of_int x * m)) p in
            let w := fdiv (Fin (fsum A layer)) (Fin n) in
            Next {| aa := fadd (aa st) (fmul w a);
                    r := subtract (r st) layer;
                    calls := p :: calls st |}
        end
  end.

(** [for _ in range(k)], with [k] passes left. *)
Fixpoint loop (k : nat) (n : Q) (st : state) : result state :=
  match k with
  | O => Ok st
  | S k' =>
      match body n st with
      | Break => Ok st
      | Next st' => loop k' n st'
      | Raise e => Err e
      end
  end.

(** The state in which [agreement] enters its loop (lines 121 to 126):
    [v.astype(float)] converts every count. *)
Definition initial (l : list Z) : state :=
  {| aa := Fin 0; r := map of_int l; calls := [] |}.

(** [agreement] up to its [return], with the final state of the loop. *)
Definition agreement_run (v : ndarray) : result state :=
  if (len v <? 3)%nat
  then Err (ValueError "Length of vector < 3, agreement A is not defined.")
  else
    match v with
    | FloatArray _ => Err (ValueError "Frequency vector must contain integers.")
    | IntArray l =>
        match np_min l with
        | None =>
            Err (ValueError
                   "zero-size array to reduction operation minimum which has no identity")
        | Some mn =>
            if (mn <? 0)%Z
            then Err (ValueError "Negative values found in frequency vector.")
            else loop (length l) (fsum A (map of_int l)) (initial l)
        end
    end.

Definition agreement (v : ndarray) : result fval :=
  rmap aa (agreement_run v).

End Code.

End Rounded.

(** ** Binary floating point with 53 significant bits *)

(** The exponent of a positive number [a]: the [e] with
    2^e <= a < 2^(e+1). *)
Definition ilog2 (a : Q) : Z :=
  let e := (Z.log2 (Qnum a) - Z.log2 (Zpos (Qden a)))%Z in
  if Qle_bool (2 ^ e) a then e else (e - 1)%Z.

(** Rounding to the nearest whole number, a tie going to the even one. *)
Definition rne (x : Q) : Z :=
  let f := Qfloor x in
  match Qcompare (x - inject_Z f) (1 # 2) with
  | Lt => f
  | Gt => (f + 1)%Z
  | Eq => if Z.even f then f else (f + 1)%Z
  end.

(** A positive number rounded to 53 significant bits: the number is
    scaled into [2^52, 2^53), rounded to a whole number and scaled back. *)
Definition round_pos (a : Q) : Q :=
  let c := (ilog2 a - 52)%Z in
  inject_Z (rne (a / 2 ^ c)) * 2 ^ c.

(** Rounding to nearest, ties to even, with 53 significant bits.  This is
    the rounding of binary64 on the numbers whose magnitude lies between
    2^-1022 and 2^1024, the range without overflow and without subnormal
    results, which the values of the code do not leave. *)
Definition round53 (q : Q) : Q :=
  match q ?= 0 with
  | Eq => 0
  | Gt => Qred (round_pos q)
  | Lt => Qred (- round_pos (- q))
  end.

(** The arithmetic of binary64 on the values of the code: every operation
    is rounded to 53 significant bits, and [np.sum] adds in NumPy's
    order. *)
Definition binary53 : arithmetic :=
  {| rnd := round53;
     fsum := np_add_reduce (fun x y => round53 (x + y)) 0 |}.

(** The number that a float is, and the number that a value of the
    rounded semantics is; [None] for an infinity or NaN. *)
Definition float_value (f : float) : option Q :=
  match Prim2SF f with
  | S754_zero _ => Some 0
  | S754_finite s m e =>
      Some (Qred ((if s then -1 else 1) * inject_Z (Zpos m) * 2 ^ e))
  | _ => None
  end.

Definition finite_value (x : Rounded.fval) : option Q :=
  match x with
  | Rounded.Fin q => Some (Qred q)
  | _ => None
  end.

(** ** The formula of the specification *)

(** The number of non-empty categories: the nonzero entries of [p]. *)
Definition spec_s (p : list Z) : Z :=
  Z.of_nat (length (filter (fun x => negb (x =? 0)%Z) p)).

(** U, from the counters of the specification. *)
Definition spec_U (p : list Z) : Q :=
  let k := Z.of_nat (length p) in
  let tu := spec_T_u p in
  let tdu := spec_T_du p in
  if (tu + tdu =? 0)%Z then 0
  else inject_Z ((k - 2) * tu - (k - 1) * tdu)
       / inject_Z ((k - 2) * (tu + tdu)).

(** A = U * (1 - (s-1)/(k-1)) *)
Definition spec_A (p : list Z) : Q :=
  let k := Z.of_nat (length p) in
  spec_U p * (1 - inject_Z (spec_s p - 1) / inject_Z (k - 1)).

(** A with the override for a single non-empty category.  With three or
    more categories the formula divides by nothing that is zero, so the
    override for a value that is not a number has nothing to replace. *)
Definition spec_pattern_agreement (p : list Z) : Q :=
  if (spec_s p =? 1)%Z then 1 else spec_A p.

(** ** Notions used in the statements *)

(** A frequency vector without negative counts, an exhausted remainder, and
    the number of categories that are not empty. *)
Definition nonneg (l : list Z) : Prop := Forall (fun x => 0 <= x)%Z l.
Definition all_zero (l : list Z) : Prop := Forall (fun x => x = 0%Z) l.
Definition nonzeros (l : list Z) : nat :=
  length (filter (fun x => negb (x =? 0)%Z) l).

(** What one layer of height [m] leaves of an entry of the remainder. *)
Definition peel (m x : Z) : Z := if (x =? 0)%Z then 0%Z else (x - m)%Z.

(** [runs n i st st']: from [st], [i] passes through the loop body, none of
    which breaks or raises, lead to [st']. *)
Inductive runs (n : Z) : nat -> Exact.state -> Exact.state -> Prop :=
| runs_done (st : Exact.state) : runs n 0 st st
| runs_step (i : nat) (st st' st'' : Exact.state) :
    Exact.body n st = Exact.Next st' -> runs n i st' st'' ->
    runs n (S i) st st''.

(** The state after a layer of agreement [a] has been taken from [st]. *)
Definition peeled (n : Z) (st : Exact.state) (a : Q) : Exact.state :=
  let m := Exact.min_positive (Exact.r st) in
  let s := Z.of_nat (nonzeros (Exact.r st)) in
  let w := Exact.fdiv (Exact.of_int (m * s)) (Exact.of_int n) in
  {| Exact.aa := Exact.fadd (Exact.aa st) (Exact.fmul w (Exact.Fin a));
     Exact.r := map (peel m) (Exact.r st);
     Exact.calls := Exact.pattern_of (Exact.r st) :: Exact.calls st |}.

(** The state in which [agreement] enters its loop (lines 123 to 126). *)
Definition initial (l : list Z) : Exact.state :=
  {| Exact.aa := Exact.Fin 0; Exact.r := l; Exact.calls := [] |}.

(** The preconditions of [agreement]. *)
Definition integral (v : ndarray) : Prop := is_integer_dtype v = true.

Definition has_negative (v : ndarray) : Prop :=
  match v with
  | IntArray l => Exists (fun x => x < 0)%Z l
  | FloatArray l => Exists (fun x => x < 0) l
  end.

Definition valid (v : ndarray) : Prop :=
  (3 <= len v)%nat /\ integral v /\ ~ has_negative v.

(** The states the loop goes through keep a remainder without negative
    entries, of the length of the input, and log pattern vectors of that
    length only. *)
Definition well_formed (k : nat) (st : Exact.state) : Prop :=
  nonneg (Exact.r st) /\ length (Exact.r st) = k
  /\ Forall (fun p => binary p /\ length p = k) (Exact.calls st).

(** The vector of length [k] with [x] in its first and in its last
    position and 0 elsewhere. *)
Definition poles (k : nat) (x : Z) : list Z := x :: repeat 0%Z (k - 2) ++ [x].

(** ** Notions used in the further properties *)

(** The triple of positions that [t] becomes when a vector of length [k] is
    read from its other end. *)
Definition mirror (k : nat) (t : nat * nat * nat) : nat * nat * nat :=
  let '(i, j, m) := t in (k - 1 - m, k - 1 - j, k - 1 - i)%nat.

(** ** Notions used in the statements on rounded arithmetic *)

(** A float that is not negative, and an array of such floats. *)
Definition float_nonneg (A : arithmetic) (x : Q) : Prop :=
  0 <= x /\ rnd A x == x.

(** The number of entries of a float array that are not zero. *)
Definition active (r : list Q) : nat :=
  length (filter (fun x => negb (Rounded.is_zero x)) r).

(** [rounded_runs A n i st st']: from [st], [i] passes through the loop
    body, none of which breaks or raises, lead to [st']. *)
Inductive rounded_runs (A : arithmetic) (n : Q)
  : nat -> Rounded.state -> Rounded.state -> Prop :=
| rounded_runs_done (st : Rounded.state) : rounded_runs A n 0 st st
| rounded_runs_step (i : nat) (st st' st'' : Rounded.state) :
    Rounded.body A n st = Rounded.Next st' -> rounded_runs A n i st' st'' ->
    rounded_runs A n (S i) st st''.

(** What line 143 makes of an entry [x] of the remainder when the layer
    has height [m]: an empty category stays empty, an active one loses [m],
    and the difference is rounded. *)
Definition lose (A : arithmetic) (m x : Q) : Q :=
  if Rounded.is_zero x then rnd A 0 else rnd A (x - m).

(** The state after a layer of agreement [a] has been taken from [st]. *)
Definition taken (A : arithmetic) (n : Q) (st : Rounded.state)
    (a : Rounded.fval) : Rounded.state :=
  let m := Rounded.min_positive (Rounded.r st) in
  let p := Rounded.pattern_of (Rounded.r st) in
  let layer := map (fun x => rnd A (Rounded.of_int A x * m)) p in
  let w := Rounded.fdiv A (Rounded.Fin (fsum A layer)) (Rounded.Fin n) in
  {| Rounded.aa := Rounded.fadd A (Rounded.aa st) (Rounded.fmul A w a);
     Rounded.r := map (lose A m) (Rounded.r st);
     Rounded.calls := p :: Rounded.calls st |}.

(** The states of the loop on the input multiplied by [c] and on the input
    itself, as long as the remainder holds whole numbers that are converted
    without rounding: the remainder is multiplied, the accumulated agreement
    and the patterns are the same. *)
Definition scaled (A : arithmetic) (c : Z) (st stc : Rounded.state) : Prop :=
  Rounded.aa stc = Rounded.aa st /\ Rounded.calls stc = Rounded.calls st
  /\ exists rz,
       nonneg rz /\ rz <> [] /\ (c * np_sum rz <= 2 ^ 53)%Z
       /\ Rounded.r st = map (Rounded.of_int A) rz
       /\ Rounded.r stc = map (Rounded.of_int A) (map (Z.mul c) rz).

Definition scaled_outcome (A : arithmetic) (c : Z) (o oc : Rounded.outcome)
  : Prop :=
  match o, oc with
  | Rounded.Break, Rounded.Break => True
  | Rounded.Next st, Rounded.Next stc => scaled A c st stc
  | Rounded.Raise e, Rounded.Raise ec => ec = e
  | _, _ => False
  end.

(** * Proofs *)

(** ** Sums, maxima and minima of integer arrays *)

Lemma fold_add_shift (l : list Z) (a : Z) :
  fold_left Z.add l a = (a + fold_left Z.add l 0)%Z.
Proof.
  revert a. induction l as [|x l IH]; intros a; simpl.
  - lia.
  - rewrite (IH (a + x)%Z), (IH x). lia.
Qed.

Lemma np_sum_nil : np_sum [] = 0%Z.
Proof. reflexivity. Qed.

Lemma np_sum_cons (x : Z) (l : list Z) : np_sum (x :: l) = (x + np_sum l)%Z.
Proof. unfold np_sum. simpl. apply fold_add_shift. Qed.

Lemma np_sum_app (l1 l2 : list Z) : np_sum (l1 ++ l2) = (np_sum l1 + np_sum l2)%Z.
Proof.
  induction l1 as [|x l1 IH].
  - rewrite np_sum_nil. reflexivity.
  - simpl app. rewrite !np_sum_cons, IH. lia.
Qed.

Lemma fold_max_spec (l : list Z) (a : Z) :
  let mx := fold_left Z.max l a in
  (a <= mx)%Z /\ Forall (fun x => x <= mx)%Z l /\ (mx = a \/ In mx l).
Proof.
  revert a. induction l as [|x l IH]; intros a; simpl.
  - repeat split; auto; lia.
  - destruct (IH (Z.max a x)) as (H1 & H2 & H3). repeat split.
    + lia.
    + constructor; [lia | exact H2].
    + destruct H3 as [H3 | H3]; [| now auto].
      rewrite H3. destruct (Z.max_spec a x) as [[_ E] | [_ E]]; rewrite E; auto.
Qed.

Lemma fold_min_spec (l : list Z) (a : Z) :
  let mn := fold_left Z.min l a in
  (mn <= a)%Z /\ Forall (fun x => mn <= x)%Z l /\ (mn = a \/ In mn l).
Proof.
  revert a. induction l as [|x l IH]; intros a; simpl.
  - repeat split; auto; lia.
  - destruct (IH (Z.min a x)) as (H1 & H2 & H3). repeat split.
    + lia.
    + constructor; [lia | exact H2].
    + destruct H3 as [H3 | H3]; [| now auto].
      rewrite H3. destruct (Z.min_spec a x) as [[_ E] | [_ E]]; rewrite E; auto.
Qed.

Lemma np_max_spec (l : list Z) (mx : Z) :
  np_max l = Some mx -> Forall (fun x => x <= mx)%Z l /\ In mx l.
Proof.
  destruct l as [|a l]; simpl; [discriminate |].
  intros E. injection E as <-.
  destruct (fold_max_spec l a) as (H1 & H2 & H3). split.
  - constructor; assumption.
  - destruct H3 as [-> | H3]; auto.
Qed.

Lemma np_min_spec (l : list Z) (mn : Z) :
  np_min l = Some mn -> Forall (fun x => mn <= x)%Z l /\ In mn l.
Proof.
  destruct l as [|a l]; simpl; [discriminate |].
  intros E. injection E as <-.
  destruct (fold_min_spec l a) as (H1 & H2 & H3). split.
  - constructor; assumption.
  - destruct H3 as [-> | H3]; auto.
Qed.

Lemma np_max_some (l : list Z) : l <> [] -> exists mx, np_max l = Some mx.
Proof. destruct l; [congruence | simpl; eauto]. Qed.

Lemma np_min_some (l : list Z) : l <> [] -> exists mn, np_min l = Some mn.
Proof. destruct l; [congruence | simpl; eauto]. Qed.

(** ** Pattern vectors *)

Lemma binary_sum_bounds (p : list Z) :
  binary p -> (0 <= np_sum p <= Z.of_nat (length p))%Z.
Proof.
  induction 1 as [|x p Hx _ IH]; simpl length.
  - rewrite np_sum_nil. lia.
  - rewrite np_sum_cons. lia.
Qed.

(** ** The triplet loops as sums *)

Section Sums.
Context {A : Type}.

Lemma zsum_app (f : A -> Z) (l1 l2 : list A) :
  zsum f (l1 ++ l2) = (zsum f l1 + zsum f l2)%Z.
Proof. induction l1 as [|x l1 IH]; simpl; lia. Qed.

Lemma zsum_ext_in (f g : A -> Z) (l : list A) :
  (forall x, In x l -> f x = g x) -> zsum f l = zsum g l.
Proof.
  induction l as [|x l IH]; intros H; simpl.
  - reflexivity.
  - rewrite (H x), IH; auto using in_eq, in_cons.
Qed.

Lemma zsum_zero (f : A -> Z) (l : list A) :
  (forall x, In x l -> f x = 0%Z) -> zsum f l = 0%Z.
Proof.
  induction l as [|x l IH]; intros H; simpl.
  - reflexivity.
  - rewrite (H x), IH; auto using in_eq, in_cons.
Qed.

(** A loop that adds [f x] and [g x] to a pair of counters. *)
Lemma fold_counters (F : A -> Z * Z -> Z * Z) (f g : A -> Z) (l : list A) :
  (forall x a b, In x l -> F x (a, b) = (a + f x, b + g x)%Z) ->
  forall a b,
    fold_left (fun c x => F x c) l (a, b) = (a + zsum f l, b + zsum g l)%Z.
Proof.
  induction l as [|x l IH]; intros H a b; simpl.
  - f_equal; lia.
  - rewrite H by apply in_eq. rewrite IH by auto using in_cons.
    f_equal; lia.
Qed.

(** Counting the elements of a list that satisfy a test. *)
Lemma length_filter_zsum (P : A -> bool) (l : list A) :
  Z.of_nat (length (filter P l)) = zsum (fun x => if P x then 1 else 0)%Z l.
Proof.
  induction l as [|x l IH]; simpl.
  - reflexivity.
  - destruct (P x); simpl length; lia.
Qed.
End Sums.

Lemma zsum_flat_map {A B : Type} (f : B -> Z) (g : A -> list B) (l : list A) :
  zsum f (flat_map g l) = zsum (fun x => zsum f (g x)) l.
Proof.
  induction l as [|x l IH]; simpl.
  - reflexivity.
  - rewrite zsum_app, IH. reflexivity.
Qed.

Lemma zsum_map {A B : Type} (f : B -> Z) (g : A -> B) (l : list A) :
  zsum f (map g l) = zsum (fun x => f (g x)) l.
Proof. induction l as [|x l IH]; simpl; congruence. Qed.

(** Summing over [0 .. k-1] the terms whose index lies in [a .. b-1] is
    summing over [range a b]. *)
Lemma zsum_window (f : nat -> Z) (a b k : nat) :
  (b <= k)%nat ->
  zsum (fun x => if (a <=? x)%nat && (x <? b)%nat then f x else 0%Z) (seq 0 k)
  = zsum f (range a b).
Proof.
  intros Hb. unfold range.
  destruct (Nat.le_gt_cases a b) as [Hab | Hab].
  - replace k with (a + ((b - a) + (k - b)))%nat at 1 by lia.
    rewrite !seq_app, !zsum_app. simpl Nat.add.
    rewrite (zsum_zero _ (seq 0 a)), (zsum_zero _ (seq (a + (b - a)) (k - b))).
    + rewrite Z.add_0_l, Z.add_0_r. apply zsum_ext_in.
      intros x Hx. apply in_seq in Hx.
      destruct (Nat.leb_spec a x), (Nat.ltb_spec x b); simpl; auto; lia.
    + intros x Hx. apply in_seq in Hx.
      destruct (Nat.leb_spec a x), (Nat.ltb_spec x b); simpl; auto; lia.
    + intros x Hx. apply in_seq in Hx.
      destruct (Nat.leb_spec a x), (Nat.ltb_spec x b); simpl; auto; lia.
  - replace (b - a)%nat with 0%nat by lia. simpl. apply zsum_zero.
    intros x _.
    destruct (Nat.leb_spec a x), (Nat.ltb_spec x b); simpl; auto; lia.
Qed.

Lemma triplet_step_eq (p : list Z) (i j m : nat) (a b : Z) :
  triplet_step p i j m (a, b) = (a + bimodal p i j m, b + unimodal p i j m)%Z.
Proof.
  unfold triplet_step, bimodal, unimodal, is101, is110, is011, b2z.
  destruct (item p i =? 1)%Z eqn:E1, (item p i =? 0)%Z eqn:E0;
    [apply Z.eqb_eq in E1, E0; lia | | |];
    destruct (item p j =? 1)%Z, (item p j =? 0)%Z,
             (item p m =? 1)%Z, (item p m =? 0)%Z; simpl; f_equal; lia.
Qed.

Lemma count_triplets_sums (p : list Z) :
  count_triplets p
  = (loop_sum (length p) (bimodal p), loop_sum (length p) (unimodal p)).
Proof.
  unfold count_triplets, loop_sum.
  rewrite fold_counters with
    (f := fun i => zsum (fun j => zsum (fun m => bimodal p i j m)
                     (range (j + 1) (length p))) (range (i + 1) (length p - 1)))
    (g := fun i => zsum (fun j => zsum (fun m => unimodal p i j m)
                     (range (j + 1) (length p))) (range (i + 1) (length p - 1))).
  - reflexivity.
  - intros i a b _.
    apply fold_counters with
      (F := fun j c => fold_left (fun c m => triplet_step p i j m c)
                                 (range (j + 1) (length p)) c)
      (f := fun j => zsum (fun m => bimodal p i j m) (range (j + 1) (length p)))
      (g := fun j => zsum (fun m => unimodal p i j m) (range (j + 1) (length p))).
    intros j a' b' _.
    apply fold_counters with (F := fun m c => triplet_step p i j m c).
    intros m a'' b'' _. apply triplet_step_eq.
Qed.

Lemma zsum_window_gen (g f : nat -> Z) (a b k : nat) :
  (b <= k)%nat ->
  (forall x, (x < k)%nat ->
             g x = if (a <=? x)%nat && (x <? b)%nat then f x else 0%Z) ->
  zsum g (seq 0 k) = zsum f (range a b).
Proof.
  intros Hb H. rewrite <- (zsum_window f a Hb). apply zsum_ext_in.
  intros x Hx. apply in_seq in Hx. apply H. lia.
Qed.

Lemma zsum_filter {A : Type} (f : A -> Z) (P : A -> bool) (l : list A) :
  zsum f (filter P l) = zsum (fun x => if P x then f x else 0%Z) l.
Proof.
  induction l as [|x l IH]; simpl.
  - reflexivity.
  - destruct (P x); simpl; lia.
Qed.

Lemma in_triples (k i j m : nat) :
  In (i, j, m) (triples k) <-> (i < j < m)%nat /\ (m < k)%nat.
Proof.
  unfold triples, cube. rewrite filter_In, in_flat_map. split.
  - intros [(i' & Hi & H) Ho]. apply in_flat_map in H as (j' & Hj & H).
    apply in_map_iff in H as (m' & E & Hm). injection E as -> -> ->.
    apply in_seq in Hm. simpl in Ho. apply andb_true_iff in Ho as [H1 H2].
    apply Nat.ltb_lt in H1, H2. lia.
  - intros [[H1 H2] H3]. split.
    + exists i. split; [apply in_seq; lia |].
      apply in_flat_map. exists j. split; [apply in_seq; lia |].
      apply in_map_iff. exists m. split; [reflexivity | apply in_seq; lia].
    + simpl. apply andb_true_iff. split; apply Nat.ltb_lt; lia.
Qed.

(** The loops visit exactly the ordered triples, each once. *)
Lemma loop_sum_triples (k : nat) (f : nat -> nat -> nat -> Z) :
  loop_sum k f = zsum (fun t => let '(i, j, m) := t in f i j m) (triples k).
Proof.
  unfold triples, cube. rewrite zsum_filter, zsum_flat_map.
  unfold loop_sum. symmetry. apply zsum_window_gen; [lia |].
  intros i Hi. rewrite zsum_flat_map.
  transitivity (zsum (fun j => zsum (fun m => f i j m) (range (j + 1) k))
                     (range (i + 1) (k - 1))).
  - apply zsum_window_gen; [lia |].
    intros j Hj. rewrite zsum_map. simpl.
    destruct (Nat.leb_spec (i + 1) j) as [Hij | Hij].
    + destruct (Nat.ltb_spec j (k - 1)) as [Hjk | Hjk]; simpl.
      * apply zsum_window_gen; [lia |].
        intros m Hm.
        destruct (Nat.ltb_spec i j), (Nat.ltb_spec j m),
                 (Nat.leb_spec (j + 1) m), (Nat.ltb_spec m k);
          simpl; auto; lia.
      * apply zsum_zero. intros m Hm. apply in_seq in Hm.
        destruct (Nat.ltb_spec i j), (Nat.ltb_spec j m); simpl; auto; lia.
    + simpl. apply zsum_zero. intros m Hm.
      destruct (Nat.ltb_spec i j); simpl; auto; lia.
  - destruct (Nat.leb_spec 0 i), (Nat.ltb_spec i (k - 2)); simpl; auto; try lia.
    unfold range at 2. replace (k - 1 - (i + 1))%nat with 0%nat by lia.
    reflexivity.
Qed.

Lemma spec_T_du_loop (p : list Z) :
  spec_T_du p = loop_sum (length p) (bimodal p).
Proof.
  unfold spec_T_du. rewrite length_filter_zsum, loop_sum_triples.
  apply zsum_ext_in. intros [[i j] m] _. reflexivity.
Qed.

Lemma spec_T_u_loop (p : list Z) :
  spec_T_u p = loop_sum (length p) (unimodal p).
Proof.
  unfold spec_T_u. rewrite length_filter_zsum, loop_sum_triples.
  apply zsum_ext_in. intros [[i j] m] _. reflexivity.
Qed.

(** The loops compute the counters of the specification. *)
Lemma count_triplets_spec (p : list Z) :
  count_triplets p = (spec_T_du p, spec_T_u p).
Proof. rewrite count_triplets_sums, spec_T_du_loop, spec_T_u_loop. reflexivity. Qed.

Lemma NoDup_boxes (li lj lm : list nat) :
  NoDup li -> NoDup lj -> NoDup lm ->
  NoDup (flat_map (fun i =>
           flat_map (fun j => map (fun m => (i, j, m)) lm) lj) li).
Proof.
  intros Hi Hj Hm. induction Hi as [|i li Hni Hi IH]; simpl.
  - constructor.
  - apply NoDup_app.
    + clear IH Hni. induction Hj as [|j lj Hnj Hj IHj]; simpl.
      * constructor.
      * apply NoDup_app.
        -- apply NoDup_map_NoDup_ForallPairs; [| exact Hm].
           intros a b _ _ E. now injection E.
        -- exact IHj.
        -- intros t H1 H2. apply in_map_iff in H1 as (m & <- & _).
           apply in_flat_map in H2 as (j' & Hj' & H2).
           apply in_map_iff in H2 as (m' & E & _). injection E as -> _.
           contradiction.
    + exact IH.
    + intros t H1 H2. apply in_flat_map in H1 as (j & _ & H1).
      apply in_map_iff in H1 as (m & <- & _).
      apply in_flat_map in H2 as (i' & Hi' & H2).
      apply in_flat_map in H2 as (j' & _ & H2).
      apply in_map_iff in H2 as (m' & E & _). injection E as -> _ _.
      contradiction.
Qed.

Lemma NoDup_triples (k : nat) : NoDup (triples k).
Proof.
  unfold triples, cube. apply NoDup_filter, NoDup_boxes; apply seq_NoDup.
Qed.

(** ** Exact arithmetic on fractions of integers *)

Lemma inject_Z_nonzero (z : Z) : z <> 0%Z -> ~ inject_Z z == 0.
Proof. intros H E. apply H. unfold Qeq in E. simpl in E. lia. Qed.

Lemma is_zero_inject (z : Z) : Exact.is_zero (inject_Z z) = (z =? 0)%Z.
Proof.
  unfold Exact.is_zero, Qeq_bool. simpl. rewrite Z.mul_1_r.
  destruct z; reflexivity.
Qed.

Lemma fdiv_of_int (a b : Z) :
  b <> 0%Z ->
  Exact.fdiv (Exact.of_int a) (Exact.of_int b)
  = Exact.fin (inject_Z a / inject_Z b).
Proof.
  intros Hb. unfold Exact.fdiv, Exact.of_int. rewrite is_zero_inject.
  apply Z.eqb_neq in Hb. rewrite Hb. reflexivity.
Qed.

(** ** The helper on pattern vectors *)

Lemma binary_sum_spec_s (p : list Z) : binary p -> np_sum p = spec_s p.
Proof.
  unfold spec_s. induction 1 as [|x p Hx _ IH].
  - reflexivity.
  - rewrite np_sum_cons, IH. simpl filter.
    destruct Hx as [-> | ->]; simpl negb; cbv iota; simpl length; lia.
Qed.

Lemma binary_np_max (p : list Z) :
  binary p -> p <> [] ->
  exists mx, np_max p = Some mx /\ (mx = 0 \/ mx = 1)%Z.
Proof.
  intros Hb Hp. destruct (np_max_some Hp) as (mx & E).
  exists mx. split; [exact E |].
  apply np_max_spec in E as [_ Hin].
  unfold binary in Hb. rewrite Forall_forall in Hb. auto.
Qed.

(** The value of line 61 is finite and is the formula of the
    specification. *)
Lemma raw_agreement_formula (p : list Z) :
  binary p -> (3 <= length p)%nat ->
  exists q, Exact.raw_agreement p = Ok (Exact.Fin q) /\ q == spec_A p.
Proof.
  intros Hb Hk. unfold Exact.raw_agreement.
  rewrite count_triplets_spec. unfold Exact.equation2.
  assert (Hk1 : (Z.of_nat (length p) - 1 <> 0)%Z) by lia.
  unfold spec_A, spec_U. rewrite <- (binary_sum_spec_s Hb).
  destruct (spec_T_u p + spec_T_du p =? 0)%Z eqn:E; cbn [bind].
  - rewrite (fdiv_of_int _ Hk1). eexists. split; [reflexivity |].
    rewrite !Qred_correct. reflexivity.
  - unfold Exact.int_truediv.
    assert (HD : ((Z.of_nat (length p) - 2) * (spec_T_u p + spec_T_du p) <> 0)%Z).
    { apply Z.eqb_neq in E. apply Z.neq_mul_0. lia. }
    apply Z.eqb_neq in HD. rewrite HD. cbn [bind].
    rewrite (fdiv_of_int _ Hk1). eexists. split; [reflexivity |].
    rewrite !Qred_correct. reflexivity.
Qed.

Lemma pattern_agreement_formula (p : list Z) :
  binary p -> (3 <= length p)%nat ->
  exists q, Exact._pattern_agreement p = Ok (Exact.Fin q)
            /\ q == spec_pattern_agreement p.
Proof.
  intros Hb Hk. unfold Exact._pattern_agreement.
  destruct (@binary_np_max p Hb) as (mx & Emx & Hmx);
    [intros ->; simpl in Hk; lia |].
  rewrite Emx. replace (mx >? 1)%Z with false by (rewrite Z.gtb_ltb; symmetry; apply Z.ltb_ge; lia).
  destruct (raw_agreement_formula Hb Hk) as (q & Eq & Hq).
  rewrite Eq. cbn [bind]. unfold spec_pattern_agreement.
  rewrite <- (binary_sum_spec_s Hb).
  destruct (np_sum p =? 1)%Z; eexists; split; try reflexivity. exact Hq.
Qed.

(** ** One layer *)

Lemma pattern_of_binary (l : list Z) : binary (Exact.pattern_of l).
Proof.
  unfold binary, Exact.pattern_of. apply Forall_map, Forall_forall.
  intros x _. destruct (x =? 0)%Z; auto.
Qed.

Lemma pattern_of_length (l : list Z) : length (Exact.pattern_of l) = length l.
Proof. apply length_map. Qed.

Lemma pattern_of_sum (l : list Z) :
  np_sum (Exact.pattern_of l) = Z.of_nat (nonzeros l).
Proof.
  unfold nonzeros. induction l as [|x l IH]; [reflexivity |].
  simpl. rewrite np_sum_cons, IH. destruct (x =? 0)%Z; simpl length; lia.
Qed.

Lemma nonzeros_le_length (l : list Z) : (nonzeros l <= length l)%nat.
Proof. apply filter_length_le. Qed.

Lemma nonzeros_all_zero (l : list Z) : nonzeros l = 0%nat <-> all_zero l.
Proof.
  unfold nonzeros, all_zero. induction l as [|x l IH]; simpl.
  - split; auto.
  - destruct (Z.eqb_spec x 0) as [-> | Hx]; simpl.
    + rewrite IH. split; [auto | now inversion 1].
    + split; [discriminate | inversion 1; contradiction].
Qed.

(** The test of line 131. *)
Lemma pattern_of_max (l : list Z) :
  l <> [] ->
  (all_zero l /\ np_max (Exact.pattern_of l) = Some 0%Z) \/
  (~ all_zero l /\ np_max (Exact.pattern_of l) = Some 1%Z).
Proof.
  intros Hl.
  destruct (@binary_np_max (Exact.pattern_of l) (pattern_of_binary l))
    as (mx & E & Hmx).
  { destruct l; [congruence | discriminate]. }
  rewrite E. pose proof (np_max_spec _ E) as [Hle Hin].
  destruct Hmx as [-> | ->]; [left | right]; split; try reflexivity.
  - unfold all_zero. rewrite Forall_forall in *. intros x Hx.
    specialize (Hle (if (x =? 0)%Z then 0%Z else 1%Z)).
    destruct (Z.eqb_spec x 0); [assumption |].
    exfalso. assert (1 <= 0)%Z; [| lia].
    apply Hle. unfold Exact.pattern_of.
    apply in_map_iff. exists x. destruct (Z.eqb_spec x 0); [contradiction | auto].
  - intros Hz. unfold Exact.pattern_of in Hin.
    apply in_map_iff in Hin as (x & Ex & Hx).
    unfold all_zero in Hz. rewrite Forall_forall in Hz.
    rewrite (Hz x Hx) in Ex. discriminate.
Qed.

(** The minimum of line 138 is a positive entry of the remainder, below
    every other positive entry. *)
Lemma min_positive_spec (l : list Z) :
  nonneg l -> ~ all_zero l ->
  let m := Exact.min_positive l in
  (0 < m)%Z /\ In m l /\ Forall (fun x => x = 0 \/ m <= x)%Z l.
Proof.
  intros Hn Hz. unfold Exact.min_positive.
  destruct (np_min (filter (fun x => (0 <? x)%Z) l)) as [m |] eqn:E.
  - apply np_min_spec in E as [Hle Hin].
    apply filter_In in Hin as [Hin Hpos]. apply Z.ltb_lt in Hpos.
    simpl. repeat split; auto.
    unfold nonneg in Hn. rewrite Forall_forall in *. intros x Hx.
    destruct (Z.eq_dec x 0) as [| Hx0]; [auto | right].
    apply Hle, filter_In. split; [assumption |].
    apply Z.ltb_lt. specialize (Hn x Hx). simpl in Hn. lia.
  - exfalso. apply Hz. unfold all_zero, nonneg in *.
    rewrite Forall_forall in *. intros x Hx.
    destruct (Z.eq_dec x 0) as [| Hx0]; [assumption |].
    assert (Hin : In x (filter (fun x => (0 <? x)%Z) l)).
    { apply filter_In. split; [assumption |].
      apply Z.ltb_lt. specialize (Hn x Hx). simpl in Hn. lia. }
    destruct (filter (fun x => (0 <? x)%Z) l); [contradiction | discriminate].
Qed.

Lemma np_sum_layer (m : Z) (p : list Z) :
  np_sum (map (fun x => x * m)%Z p) = (m * np_sum p)%Z.
Proof.
  induction p as [|x p IH]; [cbn; lia |].
  simpl map. rewrite !np_sum_cons, IH. lia.
Qed.

(** Line 143: every active category loses [m]. *)
Lemma subtract_layer (m : Z) (l : list Z) :
  Exact.subtract l (map (fun x => x * m)%Z (Exact.pattern_of l))
  = map (peel m) l.
Proof.
  unfold Exact.subtract, Exact.pattern_of, peel.
  induction l as [|x l IH]; [reflexivity |].
  simpl. rewrite IH. f_equal.
  destruct (Z.eqb_spec x 0); lia.
Qed.

Lemma peel_sum (m : Z) (l : list Z) :
  np_sum (map (peel m) l) = (np_sum l - m * np_sum (Exact.pattern_of l))%Z.
Proof.
  induction l as [|x l IH]; [cbn; lia |].
  simpl. rewrite !np_sum_cons, IH. unfold peel.
  destruct (Z.eqb_spec x 0); lia.
Qed.

Lemma peel_nonneg (l : list Z) :
  nonneg l -> ~ all_zero l -> nonneg (map (peel (Exact.min_positive l)) l).
Proof.
  intros Hn Hz. destruct (min_positive_spec Hn Hz) as (_ & _ & Hle).
  unfold nonneg in *. apply Forall_map. rewrite Forall_forall in *.
  intros x Hx. unfold peel.
  destruct (Z.eqb_spec x 0); [lia |].
  destruct (Hle x Hx); [contradiction | lia].
Qed.

Lemma peel_nonzeros_le (m : Z) (l : list Z) :
  (nonzeros (map (peel m) l) <= nonzeros l)%nat.
Proof.
  unfold nonzeros, peel. induction l as [|x l IH]; [auto |].
  simpl. destruct (Z.eqb_spec x 0); simpl.
  - exact IH.
  - destruct (negb (x - m =? 0)%Z); simpl; lia.
Qed.

(** A layer of the height of a nonzero entry empties that category. *)
Lemma peel_nonzeros_lt (m : Z) (l : list Z) :
  m <> 0%Z -> In m l -> (nonzeros (map (peel m) l) < nonzeros l)%nat.
Proof.
  intros Hm. induction l as [|x l IH]; intros Hin; [contradiction |].
  pose proof (peel_nonzeros_le m l) as Hle.
  unfold nonzeros in *. simpl. unfold peel at 1.
  destruct Hin as [-> | Hin].
  - destruct (Z.eqb_spec m 0); [contradiction |].
    rewrite Z.sub_diag. simpl. lia.
  - specialize (IH Hin).
    destruct (Z.eqb_spec x 0); simpl; [lia |].
    destruct (negb (x - m =? 0)%Z); simpl; lia.
Qed.

(** ** The loop *)

(** One pass of the body on a remainder without negative entries: it
    breaks on an exhausted remainder and otherwise takes a layer; it never
    raises. *)
Lemma body_cases (n : Z) (st : Exact.state) :
  nonneg (Exact.r st) -> (3 <= length (Exact.r st))%nat ->
  (all_zero (Exact.r st) /\ Exact.body n st = Exact.Break) \/
  (~ all_zero (Exact.r st) /\
   exists a,
     Exact._pattern_agreement (Exact.pattern_of (Exact.r st)) = Ok (Exact.Fin a)
     /\ a == spec_pattern_agreement (Exact.pattern_of (Exact.r st))
     /\ Exact.body n st = Exact.Next (peeled n st a)).
Proof.
  intros Hn Hk. unfold Exact.body.
  destruct (@pattern_of_max (Exact.r st)) as [[Hz E] | [Hz E]].
  { intros E. rewrite E in Hk. simpl in Hk. lia. }
  - left. rewrite E. auto.
  - right. split; [assumption |]. rewrite E. simpl Z.eqb. cbv iota.
    destruct (@pattern_agreement_formula (Exact.pattern_of (Exact.r st)))
      as (a & Ea & Ha).
    { apply pattern_of_binary. }
    { rewrite pattern_of_length. exact Hk. }
    exists a. rewrite Ea. repeat split; [exact Ha |].
    unfold peeled. rewrite np_sum_layer, subtract_layer, pattern_of_sum.
    reflexivity.
Qed.

Lemma peeled_facts (n : Z) (st : Exact.state) (a : Q) :
  nonneg (Exact.r st) -> ~ all_zero (Exact.r st) ->
  let st' := peeled n st a in
  nonneg (Exact.r st')
  /\ length (Exact.r st') = length (Exact.r st)
  /\ (nonzeros (Exact.r st') < nonzeros (Exact.r st))%nat
  /\ np_sum (Exact.r st')
     = (np_sum (Exact.r st)
        - Exact.min_positive (Exact.r st) * Z.of_nat (nonzeros (Exact.r st)))%Z.
Proof.
  intros Hn Hz. destruct (min_positive_spec Hn Hz) as (Hm & Hin & _).
  simpl. repeat split.
  - apply peel_nonneg; assumption.
  - apply length_map.
  - apply peel_nonzeros_lt; [lia | assumption].
  - rewrite peel_sum, pattern_of_sum. reflexivity.
Qed.

Lemma runs_invariant (n : Z) (Inv : Exact.state -> Prop) :
  (forall st st', Inv st -> Exact.body n st = Exact.Next st' -> Inv st') ->
  forall i st st', runs n i st st' -> Inv st -> Inv st'.
Proof.
  intros Hstep i st st' H. induction H as [st | i st st' st'' Hb _ IH]; eauto.
Qed.

Lemma runs_calls_length (n : Z) (i : nat) (st st' : Exact.state) :
  nonneg (Exact.r st) -> (3 <= length (Exact.r st))%nat ->
  runs n i st st' ->
  length (Exact.calls st') = (i + length (Exact.calls st))%nat.
Proof.
  intros Hn Hk H. induction H as [st | i st st' st'' Hb _ IH]; [reflexivity |].
  destruct (body_cases n st Hn Hk) as [[_ E] | (Hz & a & _ & _ & E)];
    rewrite E in Hb; [discriminate |]. injection Hb as <-.
  destruct (peeled_facts n st a Hn Hz) as (Hn' & Hl' & _).
  rewrite IH; [simpl; lia | assumption | lia].
Qed.

(** The loop stops by itself: with enough passes for the non-empty
    categories it returns, after at most that many layers, and the
    remainder is then exhausted. *)
Lemma loop_runs (n : Z) (fuel : nat) (st : Exact.state) :
  nonneg (Exact.r st) -> (3 <= length (Exact.r st))%nat ->
  (nonzeros (Exact.r st) <= fuel)%nat ->
  exists i st',
    Exact.loop fuel n st = Ok st' /\ runs n i st st'
    /\ (i <= nonzeros (Exact.r st))%nat /\ all_zero (Exact.r st').
Proof.
  revert st. induction fuel as [|fuel IH]; intros st Hn Hk Hf.
  - exists 0%nat, st. repeat split; [constructor | lia |].
    apply nonzeros_all_zero. lia.
  - simpl. destruct (body_cases n st Hn Hk) as [[Hz E] | (Hz & a & _ & _ & E)];
      rewrite E.
    + exists 0%nat, st. repeat split; [constructor | lia | assumption].
    + destruct (peeled_facts n st a Hn Hz) as (Hn' & Hl' & Hlt & _).
      destruct (IH (peeled n st a)) as (i & st' & El & Hr & Hi & Hz');
        [assumption | lia | lia |].
      exists (S i), st'. repeat split; [assumption | | lia | assumption].
      econstructor; eassumption.
Qed.

(** ** The validation of [agreement] *)

Lemma np_min_sign (l : list Z) (mn : Z) :
  np_min l = Some mn -> ((mn <? 0)%Z = false <-> nonneg l).
Proof.
  intros E. apply np_min_spec in E as [Hle Hin]. rewrite Z.ltb_ge.
  unfold nonneg. rewrite Forall_forall in *. split.
  - intros H x Hx. specialize (Hle x Hx). simpl in Hle. lia.
  - intros H. exact (H mn Hin).
Qed.

Lemma nonneg_no_negative (l : list Z) :
  nonneg l <-> ~ Exists (fun x => x < 0)%Z l.
Proof.
  unfold nonneg. rewrite <- Forall_Exists_neg. split; apply Forall_impl; intros; lia.
Qed.

Lemma agreement_run_valid (l : list Z) :
  (3 <= length l)%nat -> nonneg l ->
  Exact.agreement_run (IntArray l)
  = Exact.loop (length l) (np_sum l) (initial l).
Proof.
  intros Hk Hn. unfold Exact.agreement_run. simpl len.
  destruct (Nat.ltb_spec (length l) 3) as [| _]; [lia |].
  destruct (@np_min_some l) as (mn & E).
  { intros ->. simpl in Hk. lia. }
  rewrite E. apply (np_min_sign _ E) in Hn. rewrite Hn. reflexivity.
Qed.

Lemma well_formed_step (k : nat) (n : Z) (st st' : Exact.state) :
  (3 <= k)%nat -> well_formed k st -> Exact.body n st = Exact.Next st' ->
  well_formed k st'.
Proof.
  intros Hk (Hn & Hl & Hc) Hb.
  destruct (body_cases n st Hn) as [[_ E] | (Hz & a & _ & _ & E)];
    [lia | | ]; rewrite E in Hb; [discriminate |]. injection Hb as <-.
  destruct (peeled_facts n st a Hn Hz) as (Hn' & Hl' & _).
  repeat split; [assumption | lia |]. simpl. constructor; [| assumption].
  split; [apply pattern_of_binary | rewrite pattern_of_length; assumption].
Qed.

Lemma well_formed_runs (k : nat) (n : Z) (i : nat) (st st' : Exact.state) :
  (3 <= k)%nat -> runs n i st st' -> well_formed k st -> well_formed k st'.
Proof.
  intros Hk. apply runs_invariant. intros s1 s2. apply well_formed_step, Hk.
Qed.

Lemma well_formed_initial (l : list Z) : nonneg l -> well_formed (length l) (initial l).
Proof. intros Hn. repeat split; [assumption | constructor]. Qed.

(** A valid input goes through its loop without an exception. *)
Lemma agreement_run_runs (l : list Z) :
  (3 <= length l)%nat -> nonneg l ->
  exists i st',
    Exact.agreement_run (IntArray l) = Ok st'
    /\ runs (np_sum l) i (initial l) st'
    /\ (i <= nonzeros l)%nat /\ all_zero (Exact.r st')
    /\ length (Exact.calls st') = i
    /\ well_formed (length l) st'.
Proof.
  intros Hk Hn. rewrite (agreement_run_valid Hk Hn).
  destruct (@loop_runs (np_sum l) (length l) (initial l))
    as (i & st' & E & Hr & Hi & Hz);
    [assumption | assumption | apply nonzeros_le_length |].
  pose proof (well_formed_runs Hk Hr (well_formed_initial Hn)) as Hw.
  exists i, st'. repeat split; try assumption; try apply Hw.
  rewrite (@runs_calls_length (np_sum l) i (initial l) st'); auto.
Qed.

(** The arithmetic of one call of the helper on a pattern vector. *)
Lemma call_arithmetic (p : list Z) :
  binary p -> (3 <= length p)%nat ->
  let k := Z.of_nat (length p) in
  (k - 1 <> 0)%Z
  /\ (forall tdu tu, count_triplets p = (tdu, tu) ->
        (tu + tdu <> 0 -> (k - 2) * (tu + tdu) <> 0)%Z)
  /\ exists q,
       Exact.raw_agreement p = Ok (Exact.Fin q)
       /\ Exact.isnan (Exact.Fin q) = false
       /\ Exact._pattern_agreement p
          = Ok (if (np_sum p =? 1)%Z then Exact.Fin 1 else Exact.Fin q).
Proof.
  intros Hb Hk k. split; [unfold k; lia |]. split.
  - intros tdu tu _ H. apply Z.neq_mul_0. unfold k. lia.
  - destruct (raw_agreement_formula Hb Hk) as (q & Eq & _).
    exists q. repeat split; [assumption |].
    unfold Exact._pattern_agreement.
    destruct (@binary_np_max p Hb) as (mx & Emx & Hmx);
      [intros ->; simpl in Hk; lia |].
    rewrite Emx.
    replace (mx >? 1)%Z with false
      by (rewrite Z.gtb_ltb; symmetry; apply Z.ltb_ge; lia).
    rewrite Eq. reflexivity.
Qed.

Lemma all_zero_nonneg (l : list Z) : all_zero l -> nonneg l.
Proof. apply Forall_impl. intros x ->. lia. Qed.

Lemma all_zero_sum (l : list Z) : all_zero l -> np_sum l = 0%Z.
Proof.
  induction 1 as [|x l Hx _ IH]; [reflexivity |].
  rewrite np_sum_cons, IH, Hx. reflexivity.
Qed.

(** ** Multiplying the input by a positive constant *)

Section Scaling.
Variable c : Z.
Hypothesis c_pos : (0 < c)%Z.

Lemma pattern_of_scale (l : list Z) :
  Exact.pattern_of (map (Z.mul c) l) = Exact.pattern_of l.
Proof.
  unfold Exact.pattern_of. rewrite map_map. apply map_ext. intros z.
  destruct (Z.eqb_spec (c * z) 0), (Z.eqb_spec z 0); auto; nia.
Qed.

Lemma np_sum_scale (l : list Z) : np_sum (map (Z.mul c) l) = (c * np_sum l)%Z.
Proof.
  induction l as [|z l IH]; [cbn; lia |].
  simpl map. rewrite !np_sum_cons, IH. lia.
Qed.

Lemma fold_min_scale (l : list Z) (a : Z) :
  fold_left Z.min (map (Z.mul c) l) (c * a)%Z = (c * fold_left Z.min l a)%Z.
Proof.
  revert a. induction l as [|z l IH]; intros a; [reflexivity |].
  simpl. rewrite <- IH. f_equal. rewrite Z.mul_min_distr_nonneg_l; lia.
Qed.

Lemma np_min_scale (l : list Z) :
  np_min (map (Z.mul c) l) = option_map (Z.mul c) (np_min l).
Proof.
  destruct l as [|a l]; [reflexivity |]. simpl. f_equal. apply fold_min_scale.
Qed.

Lemma min_positive_scale (l : list Z) :
  Exact.min_positive (map (Z.mul c) l) = (c * Exact.min_positive l)%Z.
Proof.
  unfold Exact.min_positive.
  replace (filter (fun z => (0 <? z)%Z) (map (Z.mul c) l))
    with (map (Z.mul c) (filter (fun z => (0 <? z)%Z) l)).
  - rewrite np_min_scale.
    destruct (np_min (filter (fun z => (0 <? z)%Z) l)); simpl; lia.
  - induction l as [|z l IH]; [reflexivity |]. simpl.
    replace (0 <? c * z)%Z with (0 <? z)%Z.
    + destruct (0 <? z)%Z; simpl; rewrite IH; reflexivity.
    + destruct (Z.ltb_spec 0 z), (Z.ltb_spec 0 (c * z)); auto; nia.
Qed.

Lemma peel_scale (m z : Z) : peel (c * m) (c * z) = (c * peel m z)%Z.
Proof.
  unfold peel. destruct (Z.eqb_spec (c * z) 0), (Z.eqb_spec z 0); nia.
Qed.

End Scaling.

(** ** What raises nothing *)

Lemma count_triplets_short (p : list Z) :
  (length p < 3)%nat -> count_triplets p = (0, 0)%Z.
Proof.
  intros H. unfold count_triplets, range.
  replace (length p - 2 - 0)%nat with 0%nat by lia. reflexivity.
Qed.

(** The divisor of line 58 is zero only when the counters are, in which
    case the line is not executed. *)
Lemma divisor_nonzero (p : list Z) (tdu tu : Z) :
  count_triplets p = (tdu, tu) -> (tu + tdu <> 0)%Z ->
  ((Z.of_nat (length p) - 2) * (tu + tdu) <> 0)%Z.
Proof.
  intros E H. destruct (Nat.lt_ge_cases (length p) 3) as [Hk | Hk].
  - rewrite (count_triplets_short p Hk) in E. injection E as <- <-. lia.
  - apply Z.neq_mul_0. lia.
Qed.

Lemma f64_raw_agreement_returns (p : list Z) :
  exists a, F64.raw_agreement p = Ok a.
Proof.
  unfold F64.raw_agreement.
  destruct (count_triplets p) as [tdu tu] eqn:E. unfold F64.equation2.
  destruct (Z.eqb_spec (tu + tdu) 0) as [| H]; cbn [bind]; [eauto |].
  unfold F64.int_truediv. apply (divisor_nonzero p E) in H.
  apply Z.eqb_neq in H. rewrite H. cbn [bind]. eauto.
Qed.

Lemma f64_pattern_of_binary (r : list float) : binary (F64.pattern_of r).
Proof.
  unfold binary, F64.pattern_of. apply Forall_map, Forall_forall.
  intros x _. destruct (PrimFloat.eqb x 0); auto.
Qed.

Lemma f64_helper_returns (p : list Z) :
  binary p -> p <> [] -> exists a, F64._pattern_agreement p = Ok a.
Proof.
  intros Hb Hp. unfold F64._pattern_agreement.
  destruct (binary_np_max Hb Hp) as (mx & E & Hmx). rewrite E.
  replace (mx >? 1)%Z with false
    by (rewrite Z.gtb_ltb; symmetry; apply Z.ltb_ge; lia).
  destruct (f64_raw_agreement_returns p) as [a Ea]. rewrite Ea. cbn [bind].
  eauto.
Qed.

(** A pass of the loop in binary64 raises nothing and keeps the length of
    the remainder. *)
Lemma f64_body_cases (n : float) (st : F64.state) :
  F64.r st <> [] ->
  F64.body n st = F64.Break
  \/ exists st', F64.body n st = F64.Next st'
                 /\ length (F64.r st') = length (F64.r st).
Proof.
  intros Hr. unfold F64.body.
  assert (Hp : F64.pattern_of (F64.r st) <> []).
  { unfold F64.pattern_of. destruct (F64.r st); [congruence | discriminate]. }
  destruct (binary_np_max (f64_pattern_of_binary (F64.r st)) Hp)
    as (mx & E & _).
  rewrite E. destruct (mx =? 0)%Z; [auto |]. right.
  destruct (f64_helper_returns (f64_pattern_of_binary (F64.r st)) Hp) as [a Ea].
  rewrite Ea. eexists. split; [reflexivity |].
  cbn [F64.r]. unfold F64.subtract, F64.pattern_of.
  rewrite length_map, length_combine, !length_map. lia.
Qed.

Lemma f64_loop_returns (k : nat) (n : float) (st : F64.state) :
  F64.r st <> [] -> exists st', F64.loop k n st = Ok st'.
Proof.
  revert st. induction k as [|k IH]; intros st Hr; [simpl; eauto |].
  simpl. destruct (f64_body_cases n st Hr) as [E | (st' & E & Hl)]; rewrite E.
  - eauto.
  - apply IH. intros E'. rewrite E' in Hl. destruct (F64.r st); [congruence | discriminate].
Qed.

(** ** Rounded arithmetic *)

Lemma is_zero_spec (q : Q) : reflect (q == 0) (Rounded.is_zero q).
Proof. apply iff_reflect. symmetry. apply Qeq_bool_iff. Qed.

Lemma ltb_spec (a b : Q) : reflect (a < b) (Rounded.ltb a b).
Proof.
  apply iff_reflect. unfold Rounded.ltb. rewrite negb_true_iff.
  rewrite <- not_true_iff_false, Qle_bool_iff. split.
  - apply Qlt_not_le.
  - apply Qnot_le_lt.
Qed.

Section RoundedFacts.
Variable A : arithmetic.
Hypothesis HA : ieee A.

Lemma rnd_morph (a b : Q) : a == b -> rnd A a == rnd A b.
Proof. intros H. rewrite (rnd_eq HA H). reflexivity. Qed.

Lemma rnd_zero : rnd A 0 == 0.
Proof. apply (rnd_int HA 0). simpl. lia. Qed.

Lemma rnd_one : rnd A 1 == 1.
Proof. apply (rnd_int HA 1). simpl. lia. Qed.

Lemma rnd_nonneg (a : Q) : 0 <= a -> 0 <= rnd A a.
Proof.
  intros H. apply Qle_trans with (rnd A 0).
  - rewrite rnd_zero. apply Qle_refl.
  - apply (rnd_mono HA), H.
Qed.

Lemma is_zero_rnd_zero : Rounded.is_zero (rnd A 0) = true.
Proof. destruct (is_zero_spec (rnd A 0)) as [| H]; [reflexivity |]. destruct (H rnd_zero). Qed.

(** *** The conversion of the counts *)

Lemma of_int_exact (z : Z) :
  (0 <= z <= 2 ^ 53)%Z -> Rounded.of_int A z == inject_Z z.
Proof. intros H. apply (rnd_int HA). lia. Qed.

Lemma of_int_float (z : Z) : rnd A (Rounded.of_int A z) == Rounded.of_int A z.
Proof. apply (rnd_idem HA). Qed.

Lemma of_int_pos (z : Z) : (0 < z)%Z -> 1 <= Rounded.of_int A z.
Proof.
  intros H. apply Qle_trans with (rnd A 1).
  - rewrite rnd_one. apply Qle_refl.
  - apply (rnd_mono HA). change 1 with (inject_Z 1). rewrite <- Zle_Qle. lia.
Qed.

Lemma of_int_zero : Rounded.of_int A 0 == 0.
Proof. exact rnd_zero. Qed.

Lemma of_int_nonneg (z : Z) : (0 <= z)%Z -> float_nonneg A (Rounded.of_int A z).
Proof.
  intros H. split; [| apply of_int_float].
  apply rnd_nonneg. change 0 with (inject_Z 0). rewrite <- Zle_Qle. exact H.
Qed.

Lemma of_int_is_zero (z : Z) :
  (0 <= z)%Z -> Rounded.is_zero (Rounded.of_int A z) = (z =? 0)%Z.
Proof.
  intros H. destruct (Z.eqb_spec z 0) as [-> | Hz].
  - exact is_zero_rnd_zero.
  - destruct (is_zero_spec (Rounded.of_int A z)) as [E |]; [| reflexivity].
    assert (H1 : 1 <= Rounded.of_int A z) by (apply of_int_pos; lia).
    rewrite E in H1. apply Qle_not_lt in H1. destruct H1. reflexivity.
Qed.

Lemma floats_initial (l : list Z) :
  nonneg l -> Forall (float_nonneg A) (map (Rounded.of_int A) l).
Proof.
  intros H. apply Forall_map. revert H. apply Forall_impl.
  intros z. apply of_int_nonneg.
Qed.

(** The float copy of the counts has the zeros of the counts. *)
Lemma pattern_of_copy (l : list Z) :
  nonneg l ->
  Rounded.pattern_of (map (Rounded.of_int A) l) = Exact.pattern_of l.
Proof.
  induction 1 as [|x l Hx _ IH]; [reflexivity |].
  simpl. rewrite IH, (of_int_is_zero Hx). reflexivity.
Qed.

(** *** One layer *)

Lemma lose_float (m x : Q) :
  0 <= x -> x == 0 \/ m <= x -> float_nonneg A (lose A m x).
Proof.
  intros Hx Hm. unfold lose, float_nonneg.
  destruct (is_zero_spec x) as [E | E].
  - split; [apply rnd_nonneg, Qle_refl | apply (rnd_idem HA)].
  - split; [| apply (rnd_idem HA)].
    apply rnd_nonneg. destruct Hm as [Hm | Hm]; [contradiction |].
    rewrite <- (Qplus_opp_r m). apply Qplus_le_compat; [exact Hm | apply Qle_refl].
Qed.

Lemma lose_self (m : Q) : lose A m m == 0.
Proof.
  unfold lose. destruct (is_zero_spec m); [apply rnd_zero |].
  transitivity (rnd A 0); [apply rnd_morph, Qplus_opp_r | apply rnd_zero].
Qed.

(** Line 143: what the subtraction of the layer leaves of every entry. *)
Lemma rounded_subtract_layer (m : Q) (r : list Q) :
  rnd A m == m ->
  Rounded.subtract A r
    (map (fun x => rnd A (Rounded.of_int A x * m)) (Rounded.pattern_of r))
  = map (lose A m) r.
Proof.
  intros Hm. unfold Rounded.subtract, Rounded.pattern_of.
  induction r as [|x r IH]; [reflexivity |].
  simpl. rewrite IH. f_equal. unfold lose.
  destruct (Rounded.is_zero x) eqn:E; apply (rnd_eq HA).
  - destruct (is_zero_spec x) as [Hx |]; [| discriminate].
    assert (H0 : rnd A (Rounded.of_int A 0 * m) == 0).
    { transitivity (rnd A 0); [apply rnd_morph | apply rnd_zero].
      rewrite of_int_zero. apply Qmult_0_l. }
    rewrite H0, Hx. reflexivity.
  - assert (H1 : rnd A (Rounded.of_int A 1 * m) == m).
    { transitivity (rnd A m); [apply rnd_morph | exact Hm].
      unfold Rounded.of_int. change (inject_Z 1) with 1. rewrite rnd_one.
      apply Qmult_1_l. }
    rewrite H1. reflexivity.
Qed.

Lemma active_le_length (r : list Q) : (active r <= length r)%nat.
Proof. apply filter_length_le. Qed.

Lemma active_zero (r : list Q) :
  active r = 0%nat <-> Forall (fun x => x == 0) r.
Proof.
  unfold active. induction r as [|x r IH]; simpl.
  - split; auto.
  - destruct (is_zero_spec x) as [Hx | Hx]; simpl.
    + rewrite IH. split; [auto | now inversion 1].
    + split; [discriminate | inversion 1; contradiction].
Qed.

Lemma lose_active_le (m : Q) (r : list Q) :
  (active (map (lose A m) r) <= active r)%nat.
Proof.
  unfold active. induction r as [|x r IH]; [auto |].
  simpl. unfold lose at 1. destruct (Rounded.is_zero x); simpl.
  - rewrite is_zero_rnd_zero. exact IH.
  - destruct (negb (Rounded.is_zero (rnd A (x - m)))); simpl; lia.
Qed.

(** A layer of the height of an entry empties that category. *)
Lemma lose_active_lt (m : Q) (r : list Q) :
  ~ m == 0 -> In m r -> (active (map (lose A m) r) < active r)%nat.
Proof.
  intros Hm. induction r as [|x r IH]; intros Hin; [contradiction |].
  pose proof (lose_active_le m r) as Hle.
  unfold active in *. simpl.
  destruct Hin as [-> | Hin].
  - destruct (is_zero_spec m) as [| _]; [contradiction |].
    destruct (is_zero_spec (lose A m m)) as [| H]; [simpl; lia |].
    destruct (H (lose_self m)).
  - specialize (IH Hin). unfold lose at 1.
    destruct (Rounded.is_zero x); simpl.
    + rewrite is_zero_rnd_zero. simpl. lia.
    + destruct (negb (Rounded.is_zero (rnd A (x - m)))); simpl; lia.
Qed.

End RoundedFacts.

(** *** The pattern vector and the minimum of a pass *)

Lemma rounded_pattern_binary (r : list Q) : binary (Rounded.pattern_of r).
Proof.
  unfold binary, Rounded.pattern_of. apply Forall_map, Forall_forall.
  intros x _. destruct (Rounded.is_zero x); auto.
Qed.

Lemma rounded_pattern_sum (r : list Q) :
  np_sum (Rounded.pattern_of r) = Z.of_nat (active r).
Proof.
  unfold active. induction r as [|x r IH]; [reflexivity |].
  simpl. rewrite np_sum_cons, IH. destruct (Rounded.is_zero x); simpl length; lia.
Qed.

(** The test of line 131. *)
Lemma rounded_pattern_max (r : list Q) :
  r <> [] ->
  (Forall (fun x => x == 0) r /\ np_max (Rounded.pattern_of r) = Some 0%Z) \/
  (~ Forall (fun x => x == 0) r /\ np_max (Rounded.pattern_of r) = Some 1%Z).
Proof.
  intros Hr.
  destruct (@binary_np_max (Rounded.pattern_of r) (rounded_pattern_binary r))
    as (mx & E & Hmx).
  { destruct r; [congruence | discriminate]. }
  rewrite E. pose proof (np_max_spec _ E) as [Hle Hin].
  destruct Hmx as [-> | ->]; [left | right]; split; try reflexivity.
  - rewrite Forall_forall in *. intros x Hx.
    specialize (Hle (if Rounded.is_zero x then 0%Z else 1%Z)).
    destruct (is_zero_spec x) as [| Hx0]; [assumption |].
    exfalso. assert (1 <= 0)%Z; [| lia].
    apply Hle. unfold Rounded.pattern_of.
    apply in_map_iff. exists x.
    destruct (is_zero_spec x); [contradiction | auto].
  - intros Hz. unfold Rounded.pattern_of in Hin.
    apply in_map_iff in Hin as (x & Ex & Hx).
    rewrite Forall_forall in Hz.
    destruct (is_zero_spec x) as [| Hx0]; [discriminate |].
    apply Hx0, Hz, Hx.
Qed.

Lemma fold_qmin_spec (l : list Q) (a : Q) :
  let mn := fold_left (fun a y => if Rounded.ltb y a then y else a) l a in
  mn <= a /\ Forall (fun x => mn <= x) l /\ (mn = a \/ In mn l).
Proof.
  revert a. induction l as [|x l IH]; intros a; simpl.
  - repeat split; auto. apply Qle_refl.
  - destruct (IH (if Rounded.ltb x a then x else a)) as (H1 & H2 & H3).
    destruct (ltb_spec x a) as [Hlt | Hge].
    + repeat split.
      * apply Qle_trans with x; [exact H1 | apply Qlt_le_weak, Hlt].
      * constructor; assumption.
      * destruct H3 as [H3 | H3]; [right; left; auto | auto].
    + apply Qnot_lt_le in Hge. repeat split.
      * exact H1.
      * constructor; [apply Qle_trans with a; assumption | assumption].
      * destruct H3 as [H3 | H3]; auto.
Qed.

Lemma np_min_q_spec (l : list Q) (mn : Q) :
  Rounded.np_min_q l = Some mn -> Forall (fun x => mn <= x) l /\ In mn l.
Proof.
  destruct l as [|a l]; simpl; [discriminate |].
  intros E. injection E as <-.
  destruct (fold_qmin_spec l a) as (H1 & H2 & H3). split.
  - constructor; assumption.
  - destruct H3 as [-> | H3]; auto.
Qed.

(** The minimum of line 138 is a positive entry of the remainder, below
    every other positive entry. *)
Lemma rounded_min_positive_spec (r : list Q) :
  Forall (fun x => 0 <= x) r -> ~ Forall (fun x => x == 0) r ->
  let m := Rounded.min_positive r in
  0 < m /\ In m r /\ Forall (fun x => x == 0 \/ m <= x) r.
Proof.
  intros Hn Hz. unfold Rounded.min_positive.
  assert (Hpos : forall x, In x r -> ~ x == 0 -> In x (filter Rounded.is_pos r)).
  { intros x Hx Hx0. apply filter_In. split; [assumption |].
    unfold Rounded.is_pos. destruct (ltb_spec 0 x) as [| H]; [reflexivity |].
    exfalso. apply Hx0. apply Qnot_lt_le in H.
    rewrite Forall_forall in Hn. apply Qle_antisym; [exact H | apply Hn, Hx]. }
  destruct (Rounded.np_min_q (filter Rounded.is_pos r)) as [m |] eqn:E.
  - apply np_min_q_spec in E as [Hle Hin].
    apply filter_In in Hin as [Hin Hm]. unfold Rounded.is_pos in Hm.
    destruct (ltb_spec 0 m) as [Hm0 |]; [| discriminate].
    simpl. repeat split; auto.
    rewrite Forall_forall in *. intros x Hx.
    destruct (is_zero_spec x) as [| Hx0]; [auto | right].
    apply Hle, Hpos; assumption.
  - exfalso. apply Hz. rewrite Forall_forall. intros x Hx.
    destruct (is_zero_spec x) as [| Hx0]; [assumption |].
    specialize (Hpos x Hx Hx0).
    destruct (filter Rounded.is_pos r); [contradiction | discriminate].
Qed.

(** *** The helper raises nothing on a pattern vector *)

Lemma rounded_raw_agreement_returns (A : arithmetic) (p : list Z) :
  exists a, Rounded.raw_agreement A p = Ok a.
Proof.
  unfold Rounded.raw_agreement.
  destruct (count_triplets p) as [tdu tu] eqn:E. unfold Rounded.equation2.
  destruct (Z.eqb_spec (tu + tdu) 0) as [| H]; cbn [bind]; [eauto |].
  unfold Rounded.int_truediv. apply (divisor_nonzero p E) in H.
  apply Z.eqb_neq in H. rewrite H. cbn [bind]. eauto.
Qed.

Lemma rounded_helper_returns (A : arithmetic) (p : list Z) :
  binary p -> p <> [] -> exists a, Rounded._pattern_agreement A p = Ok a.
Proof.
  intros Hb Hp. unfold Rounded._pattern_agreement.
  destruct (binary_np_max Hb Hp) as (mx & E & Hmx). rewrite E.
  replace (mx >? 1)%Z with false
    by (rewrite Z.gtb_ltb; symmetry; apply Z.ltb_ge; lia).
  destruct (rounded_raw_agreement_returns A p) as [a Ea]. rewrite Ea.
  cbn [bind]. eauto.
Qed.

(** *** The loop *)

Section RoundedLoop.
Variable A : arithmetic.
Hypothesis HA : ieee A.

Lemma floats_nonneg (r : list Q) :
  Forall (float_nonneg A) r -> Forall (fun x => 0 <= x) r.
Proof. apply Forall_impl. intros x [H _]. exact H. Qed.

Lemma min_positive_float (r : list Q) :
  Forall (float_nonneg A) r -> ~ Forall (fun x => x == 0) r ->
  rnd A (Rounded.min_positive r) == Rounded.min_positive r.
Proof.
  intros Hf Hz.
  destruct (rounded_min_positive_spec (floats_nonneg Hf) Hz) as (_ & Hin & _).
  rewrite Forall_forall in Hf. apply (Hf _ Hin).
Qed.

(** One pass of the body on a remainder of floats that are not negative:
    it breaks on an exhausted remainder and otherwise takes a layer; it
    never raises. *)
Lemma rounded_body_cases (n : Q) (st : Rounded.state) :
  Forall (float_nonneg A) (Rounded.r st) -> Rounded.r st <> [] ->
  (Forall (fun x => x == 0) (Rounded.r st)
   /\ Rounded.body A n st = Rounded.Break) \/
  (~ Forall (fun x => x == 0) (Rounded.r st) /\
   exists a,
     Rounded._pattern_agreement A (Rounded.pattern_of (Rounded.r st)) = Ok a
     /\ Rounded.body A n st = Rounded.Next (taken A n st a)).
Proof.
  intros Hf Hr. unfold Rounded.body.
  destruct (rounded_pattern_max Hr) as [[Hz E] | [Hz E]].
  - left. rewrite E. auto.
  - right. split; [assumption |]. rewrite E. simpl Z.eqb. cbv iota.
    destruct (@rounded_helper_returns A (Rounded.pattern_of (Rounded.r st)))
      as (a & Ea).
    { apply rounded_pattern_binary. }
    { destruct (Rounded.r st); [congruence | discriminate]. }
    exists a. rewrite Ea. split; [reflexivity |].
    unfold taken. rewrite (rounded_subtract_layer HA).
    + reflexivity.
    + apply min_positive_float; assumption.
Qed.

Lemma taken_facts (n : Q) (st : Rounded.state) (a : Rounded.fval) :
  Forall (float_nonneg A) (Rounded.r st) ->
  ~ Forall (fun x => x == 0) (Rounded.r st) ->
  let st' := taken A n st a in
  Forall (float_nonneg A) (Rounded.r st')
  /\ length (Rounded.r st') = length (Rounded.r st)
  /\ (active (Rounded.r st') < active (Rounded.r st))%nat.
Proof.
  intros Hf Hz.
  destruct (rounded_min_positive_spec (floats_nonneg Hf) Hz) as (Hm & Hin & Hle).
  simpl. repeat split.
  - apply Forall_map. rewrite Forall_forall in *. intros x Hx.
    apply (lose_float HA); [apply (Hf x Hx) | apply (Hle x Hx)].
  - apply length_map.
  - apply (lose_active_lt HA); [| assumption].
    intros E. rewrite E in Hm. discriminate Hm.
Qed.

Lemma rounded_runs_invariant (n : Q) (Inv : Rounded.state -> Prop) :
  (forall st st', Inv st -> Rounded.body A n st = Rounded.Next st' -> Inv st') ->
  forall i st st', rounded_runs A n i st st' -> Inv st -> Inv st'.
Proof.
  intros Hstep i st st' H. induction H as [st | i st st' st'' Hb _ IH]; eauto.
Qed.

(** The states of a run keep a remainder of floats that are not negative,
    of the length of the input. *)
Lemma rounded_runs_floats (n : Q) (k i : nat) (st st' : Rounded.state) :
  rounded_runs A n i st st' ->
  Forall (float_nonneg A) (Rounded.r st) /\ length (Rounded.r st) = k
  /\ (0 < k)%nat ->
  Forall (float_nonneg A) (Rounded.r st') /\ length (Rounded.r st') = k
  /\ (0 < k)%nat.
Proof.
  apply (@rounded_runs_invariant n
           (fun s => Forall (float_nonneg A) (Rounded.r s)
                     /\ length (Rounded.r s) = k /\ (0 < k)%nat)).
  clear st st'. intros st st' (Hf & Hl & Hk) Hb.
  destruct (rounded_body_cases n st Hf) as [[_ E] | (Hz & a & _ & E)].
  { intros E. rewrite E in Hl. simpl in Hl. lia. }
  - rewrite E in Hb. discriminate.
  - rewrite E in Hb. injection Hb as <-.
    destruct (taken_facts n st a Hf Hz) as (Hf' & Hl' & _).
    repeat split; [assumption | lia | assumption].
Qed.

(** The loop stops by itself: with enough passes for the non-empty
    categories it returns, after at most that many layers, and the
    remainder is then exhausted. *)
Lemma rounded_loop_runs (n : Q) (fuel : nat) (st : Rounded.state) :
  Forall (float_nonneg A) (Rounded.r st) -> Rounded.r st <> [] ->
  (active (Rounded.r st) <= fuel)%nat ->
  exists i st',
    Rounded.loop A fuel n st = Ok st' /\ rounded_runs A n i st st'
    /\ (i <= active (Rounded.r st))%nat
    /\ Forall (fun x => x == 0) (Rounded.r st').
Proof.
  revert st. induction fuel as [|fuel IH]; intros st Hf Hr Hfuel.
  - exists 0%nat, st. repeat split; [constructor | lia |].
    apply active_zero. lia.
  - simpl. destruct (rounded_body_cases n st Hf Hr) as [[Hz E] | (Hz & a & _ & E)];
      rewrite E.
    + exists 0%nat, st. repeat split; [constructor | lia | assumption].
    + destruct (taken_facts n st a Hf Hz) as (Hf' & Hl' & Hlt).
      destruct (IH (taken A n st a)) as (i & st' & El & Hruns & Hi & Hz').
      * assumption.
      * intros E'. rewrite E' in Hl'. destruct (Rounded.r st); [congruence | discriminate].
      * lia.
      * exists (S i), st'. repeat split; [assumption | | lia | assumption].
        econstructor; eassumption.
Qed.

(** On a valid input the validation passes and the loop is entered. *)
Lemma rounded_agreement_run_valid (l : list Z) :
  (3 <= length l)%nat -> nonneg l ->
  Rounded.agreement_run A (IntArray l)
  = Rounded.loop A (length l) (fsum A (map (Rounded.of_int A) l))
                 (Rounded.initial A l).
Proof.
  intros Hk Hn. unfold Rounded.agreement_run. simpl len.
  destruct (Nat.ltb_spec (length l) 3) as [| _]; [lia |].
  destruct (@np_min_some l) as (mn & E).
  { intros ->. simpl in Hk. lia. }
  rewrite E, (proj2 (np_min_sign _ E) Hn). reflexivity.
Qed.

End RoundedLoop.

(** ** Sums of arrays with one nonzero entry *)

Lemma active_permutation (l l' : list Q) :
  Permutation l l' -> active l = active l'.
Proof.
  unfold active. induction 1 as [| x l l' _ IH | x y l | l l' l'' _ IH1 _ IH2].
  - reflexivity.
  - simpl. destruct (negb (Rounded.is_zero x)); simpl; congruence.
  - simpl. destruct (negb (Rounded.is_zero x)), (negb (Rounded.is_zero y));
      reflexivity.
  - congruence.
Qed.

Lemma active_app (l1 l2 : list Q) : active (l1 ++ l2) = (active l1 + active l2)%nat.
Proof. unfold active. rewrite filter_app, length_app. reflexivity. Qed.

Section SingleEntry.
Variable A : arithmetic.
Hypothesis HA : ieee A.
Variable f : Q.
Hypothesis Hf : rnd A f == f.
Hypothesis Hf0 : ~ f == 0.

(** However the additions are ordered, the sum of an array whose only
    nonzero entry is the float [f] is [f]: every partial sum is 0 or [f]. *)
Lemma sums_single (l : list Q) (x : Q) :
  sums_to A l x ->
  Forall (fun y => y == 0 \/ y == f) l -> (active l <= 1)%nat ->
  (x == 0 /\ active l = 0%nat) \/ (x == f /\ active l = 1%nat).
Proof.
  induction 1 as [| y | l l1 l2 x y Hp _ IH1 _ IH2]; intros Hall Hact.
  - left. split; reflexivity.
  - unfold active in *. simpl in *.
    destruct (is_zero_spec y) as [Hy | Hy]; simpl; [left; auto | right].
    apply Forall_cons_iff in Hall as [[Hy' | Hy'] _]; [contradiction | auto].
  - rewrite (active_permutation Hp), active_app in *.
    assert (Hall' : Forall (fun y => y == 0 \/ y == f) (l1 ++ l2)).
    { rewrite Forall_forall in *. intros z Hz. apply Hall.
      apply (Permutation_in _ (Permutation_sym Hp)), Hz. }
    apply Forall_app in Hall' as [Hall1 Hall2].
    destruct (IH1 Hall1) as [[Ex E1] | [Ex E1]]; [lia | |];
      (destruct (IH2 Hall2) as [[Ey E2] | [Ey E2]]; [lia | |]);
      rewrite E1, E2; try lia.
    + left. split; [| reflexivity].
      transitivity (rnd A 0); [apply (rnd_morph HA) | apply (rnd_zero HA)].
      rewrite Ex, Ey. reflexivity.
    + right. split; [| reflexivity].
      transitivity (rnd A f); [apply (rnd_morph HA) | exact Hf].
      rewrite Ex, Ey. apply Qplus_0_l.
    + right. split; [| reflexivity].
      transitivity (rnd A f); [apply (rnd_morph HA) | exact Hf].
      rewrite Ex, Ey. apply Qplus_0_r.
Qed.

Lemma fsum_single (l : list Q) :
  Forall (fun y => y == 0 \/ y == f) l -> active l = 1%nat -> fsum A l == f.
Proof.
  intros Hall Hact.
  destruct (sums_single (fsum_order HA l) Hall) as [[_ E] | [E _]];
    [lia | lia | exact E].
Qed.

(** An array with one nonzero entry holds that entry and zeros. *)
Lemma single_entry (l : list Q) :
  active l = 1%nat -> In f l -> Forall (fun y => y == 0 \/ y == f) l.
Proof.
  unfold active. induction l as [|x l IH]; intros Hact Hin; [constructor |].
  simpl in Hact. destruct (is_zero_spec x) as [Hx | Hx]; simpl in Hact.
  - constructor; [auto |]. apply IH; [exact Hact |].
    destruct Hin as [-> | Hin]; [contradiction | exact Hin].
  - assert (Hz : Forall (fun y => y == 0) l) by (apply active_zero; unfold active; lia).
    constructor.
    + destruct Hin as [-> | Hin]; [right; reflexivity |].
      rewrite Forall_forall in Hz. destruct (Hf0 (Hz f Hin)).
    + revert Hz. apply Forall_impl. auto.
Qed.

(** The layer [p * m] has the height [f] where the remainder is not zero. *)
Lemma layer_single (l : list Q) :
  let layer := map (fun x => rnd A (Rounded.of_int A x * f)) (Rounded.pattern_of l) in
  Forall (fun y => y == 0 \/ y == f) layer /\ active layer = active l.
Proof.
  unfold active, Rounded.pattern_of. induction l as [|x l [IH1 IH2]]; simpl.
  - split; [constructor | reflexivity].
  - destruct (Rounded.is_zero x); simpl.
    + assert (H0 : rnd A (Rounded.of_int A 0 * f) == 0).
      { transitivity (rnd A 0); [apply (rnd_morph HA) | apply (rnd_zero HA)].
        rewrite (of_int_zero HA). apply Qmult_0_l. }
      destruct (is_zero_spec (rnd A (Rounded.of_int A 0 * f))); [| contradiction].
      simpl. split; [constructor; auto | exact IH2].
    + assert (H1 : rnd A (Rounded.of_int A 1 * f) == f).
      { transitivity (rnd A f); [apply (rnd_morph HA) | exact Hf].
        unfold Rounded.of_int. change (inject_Z 1) with 1. rewrite (rnd_one HA).
        apply Qmult_1_l. }
      destruct (is_zero_spec (rnd A (Rounded.of_int A 1 * f))) as [E |].
      * rewrite H1 in E. contradiction.
      * simpl. split; [constructor; auto | congruence].
Qed.

End SingleEntry.

Lemma active_copy (A : arithmetic) (l : list Z) :
  ieee A -> nonneg l -> active (map (Rounded.of_int A) l) = nonzeros l.
Proof.
  intros HA Hn. apply Nat2Z.inj.
  rewrite <- rounded_pattern_sum, <- pattern_of_sum, (pattern_of_copy HA Hn).
  reflexivity.
Qed.

(** The edge case of line 68. *)
Lemma rounded_override (A : arithmetic) (p : list Z) (mx : Z) (a : Rounded.fval) :
  np_max p = Some mx -> (mx <= 1)%Z -> np_sum p = 1%Z ->
  Rounded.raw_agreement A p = Ok a ->
  Rounded._pattern_agreement A p = Ok (Rounded.Fin 1).
Proof.
  intros Emx Hmx Hs Eraw. unfold Rounded._pattern_agreement.
  rewrite Emx.
  replace (mx >? 1)%Z with false
    by (rewrite Z.gtb_ltb; symmetry; apply Z.ltb_ge; lia).
  rewrite Eraw, Hs. reflexivity.
Qed.

(** ** Counts that are converted without rounding *)

Lemma np_sum_nonneg (l : list Z) : nonneg l -> (0 <= np_sum l)%Z.
Proof.
  induction 1 as [|x l Hx _ IH]; [cbn; lia |]. rewrite np_sum_cons. lia.
Qed.

Lemma nonneg_entry_le_sum (l : list Z) (z : Z) :
  nonneg l -> In z l -> (0 <= z <= np_sum l)%Z.
Proof.
  induction 1 as [|x l Hx Hl IH]; intros Hin; [contradiction |].
  rewrite np_sum_cons. pose proof (np_sum_nonneg Hl).
  destruct Hin as [-> | Hin]; [lia |]. specialize (IH Hin). lia.
Qed.

Lemma qsum_app (l1 l2 : list Q) : qsum (l1 ++ l2) == qsum l1 + qsum l2.
Proof.
  unfold qsum. induction l1 as [|x l1 IH]; simpl.
  - ring.
  - rewrite IH. ring.
Qed.

Lemma qsum_permutation (l l' : list Q) : Permutation l l' -> qsum l == qsum l'.
Proof.
  unfold qsum. induction 1 as [| x l l' _ IH | x y l | l l' l'' _ IH1 _ IH2]; simpl.
  - reflexivity.
  - rewrite IH. reflexivity.
  - ring.
  - rewrite IH1. exact IH2.
Qed.

Section Whole.
Variable A : arithmetic.
Hypothesis HA : ieee A.

(** A float that is a whole number, not negative. *)
Let whole (y : Q) : Prop := exists z, (0 <= z)%Z /\ y == inject_Z z.

Lemma qsum_whole (l : list Q) : Forall whole l -> whole (qsum l).
Proof.
  induction 1 as [|y l (z & Hz & Ey) _ (s & Hs & Es)]; simpl.
  - exists 0%Z. split; [lia | reflexivity].
  - exists (z + s)%Z. split; [lia |].
    rewrite inject_Z_plus, Ey, Es. reflexivity.
Qed.

(** However the additions are ordered, whole numbers whose sum does not
    exceed 2^53 are added without rounding. *)
Lemma sums_whole (l : list Q) (x : Q) :
  sums_to A l x -> Forall whole l -> qsum l <= inject_Z (2 ^ 53) ->
  x == qsum l.
Proof.
  induction 1 as [| y | l l1 l2 x y Hp _ IH1 _ IH2]; intros Hall Hle.
  - reflexivity.
  - simpl. ring.
  - assert (Hall' : Forall whole (l1 ++ l2)).
    { rewrite Forall_forall in *. intros z Hz. apply Hall.
      apply (Permutation_in _ (Permutation_sym Hp)), Hz. }
    apply Forall_app in Hall' as [Hall1 Hall2].
    rewrite (qsum_permutation Hp), qsum_app in *.
    destruct (qsum_whole Hall1) as (z1 & Hz1 & E1).
    destruct (qsum_whole Hall2) as (z2 & Hz2 & E2).
    assert (Hz : (z1 + z2 <= 2 ^ 53)%Z).
    { rewrite Zle_Qle, inject_Z_plus, <- E1, <- E2. exact Hle. }
    assert (Ex : x == qsum l1).
    { apply IH1; [exact Hall1 |]. rewrite E1, <- Zle_Qle. lia. }
    assert (Ey : y == qsum l2).
    { apply IH2; [exact Hall2 |]. rewrite E2, <- Zle_Qle. lia. }
    transitivity (rnd A (inject_Z (z1 + z2))).
    + apply (rnd_morph HA). rewrite Ex, Ey, E1, E2, inject_Z_plus. reflexivity.
    + rewrite (rnd_int HA) by lia. rewrite inject_Z_plus, E1, E2. reflexivity.
Qed.

Lemma qsum_copy (l : list Z) :
  nonneg l -> (np_sum l <= 2 ^ 53)%Z ->
  Forall whole (map (Rounded.of_int A) l)
  /\ qsum (map (Rounded.of_int A) l) == inject_Z (np_sum l).
Proof.
  intros Hn. induction Hn as [|z l Hz Hl IH]; intros Hs.
  - split; [constructor | reflexivity].
  - rewrite np_sum_cons in *.
    pose proof (np_sum_nonneg Hl) as H0.
    destruct IH as [IH1 IH2]; [lia |].
    assert (Ez : Rounded.of_int A z == inject_Z z)
      by (apply (of_int_exact HA); lia).
    split.
    + constructor; [| exact IH1]. exists z. auto.
    + simpl. rewrite IH2, Ez, inject_Z_plus. reflexivity.
Qed.

(** [np.sum] of the float copy of whole numbers whose sum does not exceed
    2^53 is their sum. *)
Lemma fsum_copy (l : list Z) :
  nonneg l -> (np_sum l <= 2 ^ 53)%Z ->
  fsum A (map (Rounded.of_int A) l) == inject_Z (np_sum l).
Proof.
  intros Hn Hs. destruct (qsum_copy Hn Hs) as [Hw Eq].
  rewrite <- Eq. apply sums_whole; [apply (fsum_order HA) | exact Hw |].
  rewrite Eq, <- Zle_Qle. exact Hs.
Qed.

Lemma of_int_le (a b : Z) :
  (0 <= a <= 2 ^ 53)%Z -> (0 <= b <= 2 ^ 53)%Z ->
  Rounded.of_int A a <= Rounded.of_int A b -> (a <= b)%Z.
Proof.
  intros Ha Hb H. rewrite (of_int_exact HA Ha), (of_int_exact HA Hb) in H.
  rewrite Zle_Qle. exact H.
Qed.

Lemma not_all_zero_copy (l : list Z) :
  nonneg l -> ~ all_zero l ->
  ~ Forall (fun x => x == 0) (map (Rounded.of_int A) l).
Proof.
  intros Hn Hz H. apply Hz, nonzeros_all_zero.
  rewrite <- (active_copy HA Hn). apply active_zero, H.
Qed.

(** The minimum of line 138 on the float copy is the copy of the least
    positive count. *)
Lemma min_positive_copy (l : list Z) :
  nonneg l -> (np_sum l <= 2 ^ 53)%Z -> ~ all_zero l ->
  Rounded.min_positive (map (Rounded.of_int A) l)
  = Rounded.of_int A (Exact.min_positive l).
Proof.
  intros Hn Hs Hz.
  pose proof (floats_initial HA Hn) as Hf.
  destruct (rounded_min_positive_spec (floats_nonneg Hf)
              (not_all_zero_copy Hn Hz)) as (Hm & Hin & Hle).
  destruct (min_positive_spec Hn Hz) as (HmZ & HinZ & HleZ).
  apply in_map_iff in Hin as (z & Ez & Hz_in).
  rewrite <- Ez in *.
  pose proof (@nonneg_entry_le_sum _ _ Hn Hz_in) as Hzb.
  pose proof (@nonneg_entry_le_sum _ _ Hn HinZ) as Hmb.
  assert (Hz0 : z <> 0%Z).
  { intros ->. rewrite (of_int_zero HA) in Hm. discriminate Hm. }
  rewrite Forall_forall in Hle, HleZ.
  destruct (HleZ z Hz_in) as [| H1]; [contradiction |].
  destruct (Hle (Rounded.of_int A (Exact.min_positive l))) as [E | H2].
  { apply in_map, HinZ. }
  { pose proof (of_int_pos HA HmZ) as H. rewrite E in H.
    apply Qle_not_lt in H. destruct H. reflexivity. }
  apply of_int_le in H2; [| lia | lia].
  f_equal. lia.
Qed.

(** [layer = p * m] on whole numbers. *)
Lemma layer_copy (m : Z) (p : list Z) :
  binary p -> (0 <= m <= 2 ^ 53)%Z ->
  map (fun x => rnd A (Rounded.of_int A x * Rounded.of_int A m)) p
  = map (Rounded.of_int A) (map (fun x => (x * m)%Z) p).
Proof.
  intros Hb Hm. rewrite map_map. apply map_ext_in. intros x Hx.
  apply (rnd_eq HA). rewrite inject_Z_mult, (of_int_exact HA Hm).
  unfold binary in Hb. rewrite Forall_forall in Hb.
  rewrite (@of_int_exact A HA x); [reflexivity |].
  destruct (Hb x Hx) as [-> | ->]; lia.
Qed.

(** [r - layer] on whole numbers. *)
Lemma lose_copy (m z : Z) :
  (0 <= m <= 2 ^ 53)%Z -> (0 <= z <= 2 ^ 53)%Z ->
  lose A (Rounded.of_int A m) (Rounded.of_int A z)
  = Rounded.of_int A (peel m z).
Proof.
  intros Hm Hz. unfold lose, peel.
  rewrite (@of_int_is_zero A HA z) by lia.
  destruct (z =? 0)%Z; [reflexivity |].
  apply (rnd_eq HA).
  rewrite (of_int_exact HA Hm), (of_int_exact HA Hz).
  unfold Z.sub. rewrite inject_Z_plus, inject_Z_opp. reflexivity.
Qed.

(** One pass on a remainder of whole numbers whose sum does not exceed
    2^53: the layer that is taken is the one of the counts. *)
Lemma taken_copy (n : Q) (st : Rounded.state) (a : Rounded.fval) (rz : list Z) :
  nonneg rz -> (np_sum rz <= 2 ^ 53)%Z -> ~ all_zero rz ->
  Rounded.r st = map (Rounded.of_int A) rz ->
  let m := Exact.min_positive rz in
  let s := np_sum (Exact.pattern_of rz) in
  exists S,
    S == inject_Z (m * s)
    /\ taken A n st a
       = {| Rounded.aa :=
              Rounded.fadd A (Rounded.aa st)
                (Rounded.fmul A (Rounded.fdiv A (Rounded.Fin S) (Rounded.Fin n)) a);
            Rounded.r := map (Rounded.of_int A) (map (peel m) rz);
            Rounded.calls := Exact.pattern_of rz :: Rounded.calls st |}.
Proof.
  intros Hn Hs Hz Er m s.
  destruct (min_positive_spec Hn Hz) as (Hm & Hin & _). fold m in Hm, Hin.
  pose proof (@nonneg_entry_le_sum _ _ Hn Hin) as Hmb.
  unfold taken. rewrite Er, (pattern_of_copy HA Hn), (min_positive_copy Hn Hs Hz).
  fold m. rewrite (layer_copy (pattern_of_binary rz)) by lia.
  eexists. split; [| f_equal].
  - rewrite fsum_copy.
    + rewrite np_sum_layer. reflexivity.
    + unfold nonneg. apply Forall_map.
      pose proof (pattern_of_binary rz) as Hb. unfold binary in Hb.
      revert Hb. apply Forall_impl. intros x [-> | ->]; lia.
    + rewrite np_sum_layer, pattern_of_sum.
      pose proof (peel_sum m rz) as Hp. rewrite pattern_of_sum in Hp.
      pose proof (np_sum_nonneg (peel_nonneg Hn Hz)) as Hn'. fold m in Hn'.
      lia.
  - rewrite !map_map. apply map_ext_in. intros z Hz_in.
    pose proof (@nonneg_entry_le_sum _ _ Hn Hz_in).
    apply lose_copy; lia.
Qed.

End Whole.

(** ** Multiplying the input by a positive constant, with rounding *)

Section RoundedScaling.
Variable A : arithmetic.
Hypothesis HA : ieee A.
Variable c : Z.
Hypothesis c_pos : (0 < c)%Z.

Lemma is_zero_whole (q : Q) (z : Z) :
  q == inject_Z z -> Rounded.is_zero q = (z =? 0)%Z.
Proof.
  intros E. destruct (is_zero_spec q) as [H | H], (Z.eqb_spec z 0) as [Hz | Hz];
    try reflexivity.
  - exfalso. apply (inject_Z_nonzero Hz). rewrite <- E. exact H.
  - exfalso. apply H. rewrite E, Hz. reflexivity.
Qed.

Lemma is_neg_whole (q : Q) (z : Z) :
  q == inject_Z z -> Rounded.is_neg q = (z <? 0)%Z.
Proof.
  intros E. unfold Rounded.is_neg.
  destruct (ltb_spec q 0) as [H | H], (Z.ltb_spec z 0) as [Hz | Hz];
    try reflexivity.
  - exfalso. rewrite E in H. change 0 with (inject_Z 0) in H.
    rewrite <- Zlt_Qlt in H. lia.
  - exfalso. apply H. rewrite E. change 0 with (inject_Z 0).
    rewrite <- Zlt_Qlt. exact Hz.
Qed.

(** The weight of a layer is a quotient of two whole numbers, and a common
    factor does not change the quotient that is rounded. *)
Lemma fdiv_scaled (S Sc n nc : Q) (s N : Z) :
  S == inject_Z s -> Sc == inject_Z (c * s) ->
  n == inject_Z N -> nc == inject_Z (c * N) ->
  Rounded.fdiv A (Rounded.Fin Sc) (Rounded.Fin nc)
  = Rounded.fdiv A (Rounded.Fin S) (Rounded.Fin n).
Proof.
  intros ES ESc En Enc. unfold Rounded.fdiv.
  rewrite (is_zero_whole En), (is_zero_whole Enc),
    (is_zero_whole ES), (is_zero_whole ESc),
    (is_neg_whole ES), (is_neg_whole ESc).
  replace (c * N =? 0)%Z with (N =? 0)%Z
    by (destruct (Z.eqb_spec N 0), (Z.eqb_spec (c * N) 0); auto; nia).
  replace (c * s =? 0)%Z with (s =? 0)%Z
    by (destruct (Z.eqb_spec s 0), (Z.eqb_spec (c * s) 0); auto; nia).
  replace (c * s <? 0)%Z with (s <? 0)%Z
    by (destruct (Z.ltb_spec s 0), (Z.ltb_spec (c * s) 0); auto; nia).
  destruct (Z.eqb_spec N 0) as [| HN]; [reflexivity |].
  unfold Rounded.fin. f_equal. apply (rnd_eq HA).
  rewrite ES, ESc, En, Enc, !inject_Z_mult. field.
  split; apply inject_Z_nonzero; lia.
Qed.

Lemma all_zero_scale (l : list Z) : all_zero (map (Z.mul c) l) <-> all_zero l.
Proof.
  rewrite <- !nonzeros_all_zero.
  assert (E : nonzeros (map (Z.mul c) l) = nonzeros l).
  { apply Nat2Z.inj. rewrite <- !pattern_of_sum, (pattern_of_scale c_pos).
    reflexivity. }
  rewrite E. reflexivity.
Qed.

Lemma nonneg_scale (l : list Z) : nonneg l -> nonneg (map (Z.mul c) l).
Proof.
  intros H. unfold nonneg. apply Forall_map. revert H. apply Forall_impl.
  intros z Hz. nia.
Qed.

(** One pass on the multiplied input does what the pass on the input does,
    on a remainder that is multiplied. *)
Lemma body_scaled (n nc : Q) (N : Z) (st stc : Rounded.state) :
  n == inject_Z N -> nc == inject_Z (c * N) ->
  scaled A c st stc ->
  scaled_outcome A c (Rounded.body A n st) (Rounded.body A nc stc).
Proof.
  intros En Enc (Eaa & Ecalls & rz & Hn & Hne & Hs & Er & Erc).
  pose proof (np_sum_nonneg Hn) as H0.
  assert (Hs1 : (np_sum rz <= 2 ^ 53)%Z) by nia.
  assert (Hsc : (np_sum (map (Z.mul c) rz) <= 2 ^ 53)%Z)
    by (rewrite (np_sum_scale c rz); exact Hs).
  pose proof (nonneg_scale Hn) as Hnc.
  assert (Hf : Forall (float_nonneg A) (Rounded.r st))
    by (rewrite Er; apply (floats_initial HA), Hn).
  assert (Hfc : Forall (float_nonneg A) (Rounded.r stc))
    by (rewrite Erc; apply (floats_initial HA), Hnc).
  assert (Hr : Rounded.r st <> [])
    by (rewrite Er; destruct rz; [congruence | discriminate]).
  assert (Hrc : Rounded.r stc <> [])
    by (rewrite Erc; destruct rz; [congruence | discriminate]).
  assert (Hzz : Forall (fun x => x == 0) (Rounded.r st) <-> all_zero rz).
  { rewrite <- active_zero, <- nonzeros_all_zero, Er, (active_copy HA Hn).
    reflexivity. }
  assert (Hzzc : Forall (fun x => x == 0) (Rounded.r stc) <-> all_zero rz).
  { rewrite <- active_zero, <- all_zero_scale, <- nonzeros_all_zero, Erc,
      (active_copy HA Hnc). reflexivity. }
  assert (Ep : Rounded.pattern_of (Rounded.r stc)
               = Rounded.pattern_of (Rounded.r st)).
  { rewrite Er, Erc, (pattern_of_copy HA Hn), (pattern_of_copy HA Hnc).
    apply (pattern_of_scale c_pos). }
  destruct (rounded_body_cases HA n st Hf Hr) as [[Hz E] | (Hz & a & Ea & E)];
    destruct (rounded_body_cases HA nc stc Hfc Hrc)
      as [[Hzc Ec] | (Hzc & ac & Eac & Ec)];
    rewrite E, Ec; simpl; try tauto.
  rewrite Ep, Ea in Eac. injection Eac as <-.
  assert (Hz' : ~ all_zero rz) by tauto.
  assert (Hzc' : ~ all_zero (map (Z.mul c) rz)) by (rewrite all_zero_scale; exact Hz').
  destruct (taken_copy HA n st a Hn Hs1 Hz' Er) as (S & ES & ->).
  destruct (taken_copy HA nc stc a Hnc Hsc Hzc' Erc) as (Sc & ESc & ->).
  rewrite (min_positive_scale c_pos), (pattern_of_scale c_pos),
    <- Z.mul_assoc in ESc.
  unfold scaled. cbn [Rounded.aa Rounded.r Rounded.calls].
  rewrite (fdiv_scaled ES ESc En Enc), Eaa, Ecalls,
    (pattern_of_scale c_pos), (min_positive_scale c_pos).
  repeat split.
  exists (map (peel (Exact.min_positive rz)) rz). repeat split.
  - apply peel_nonneg; assumption.
  - destruct rz; [congruence | discriminate].
  - pose proof (peel_sum (Exact.min_positive rz) rz) as Hp.
    destruct (min_positive_spec Hn Hz') as (Hm & _).
    pose proof (binary_sum_bounds (pattern_of_binary rz)). nia.
  - f_equal. rewrite !map_map. apply map_ext. intros z.
    apply (peel_scale c_pos).
Qed.

Lemma loop_scaled (n nc : Q) (N : Z) (k : nat) (st stc : Rounded.state) :
  n == inject_Z N -> nc == inject_Z (c * N) ->
  scaled A c st stc ->
  rmap Rounded.aa (Rounded.loop A k nc stc)
  = rmap Rounded.aa (Rounded.loop A k n st).
Proof.
  intros En Enc. revert st stc. induction k as [|k IH]; intros st stc H.
  - simpl. f_equal. apply H.
  - simpl. pose proof (body_scaled En Enc H) as Hb.
    destruct (Rounded.body A n st) as [| st' | e],
             (Rounded.body A nc stc) as [| stc' | ec];
      simpl in Hb; try contradiction.
    + simpl. f_equal. apply H.
    + apply IH, Hb.
    + subst ec. reflexivity.
Qed.

End RoundedScaling.

(** ** Rounding to 53 significant bits *)

Lemma pow2_pos (e : Z) : 0 < 2 ^ e.
Proof. apply Qpower_0_lt. reflexivity. Qed.

Lemma pow2_nonzero (e : Z) : ~ 2 ^ e == 0.
Proof. intros E. pose proof (pow2_pos e) as H. rewrite E in H. discriminate H. Qed.

Lemma pow2_plus (a b : Z) : 2 ^ (a + b) == 2 ^ a * 2 ^ b.
Proof. apply Qpower_plus. discriminate. Qed.

Lemma pow2_le (a b : Z) : (a <= b)%Z -> 2 ^ a <= 2 ^ b.
Proof. intros H. apply Qpower_le_compat_l; [exact H | discriminate]. Qed.

Lemma pow2_inject (n : Z) : (0 <= n)%Z -> inject_Z (2 ^ n) == 2 ^ n.
Proof. intros H. apply (Zpower_Qpower 2 n H). Qed.

Lemma pow2_minus (a b : Z) : 2 ^ (a - b) == 2 ^ a / 2 ^ b.
Proof.
  unfold Z.sub. rewrite pow2_plus, Qpower_opp. reflexivity.
Qed.

(** *** The exponent *)

Lemma ilog2_spec (a : Q) :
  0 < a -> 2 ^ ilog2 a <= a /\ a < 2 ^ (ilog2 a + 1).
Proof.
  intros Ha. destruct a as [n d].
  assert (Hn : (0 < n)%Z) by (unfold Qlt in Ha; simpl in Ha; lia).
  unfold ilog2. cbn [Qnum Qden].
  set (ln := Z.log2 n). set (ld := Z.log2 (Zpos d)).
  assert (Hln : inject_Z (2 ^ ln) <= inject_Z n
                /\ inject_Z n < inject_Z (2 ^ (ln + 1))).
  { destruct (Z.log2_spec n Hn) as [H1 H2]. fold ln in H1, H2.
    replace (Z.succ ln) with (ln + 1)%Z in H2 by lia.
    rewrite <- Zle_Qle, <- Zlt_Qlt. auto. }
  assert (Hld : inject_Z (2 ^ ld) <= inject_Z (Zpos d)
                /\ inject_Z (Zpos d) < inject_Z (2 ^ (ld + 1))).
  { destruct (Z.log2_spec (Zpos d) eq_refl) as [H1 H2]. fold ld in H1, H2.
    replace (Z.succ ld) with (ld + 1)%Z in H2 by lia.
    rewrite <- Zle_Qle, <- Zlt_Qlt. auto. }
  assert (H0n : (0 <= ln)%Z) by apply Z.log2_nonneg.
  assert (H0d : (0 <= ld)%Z) by apply Z.log2_nonneg.
  rewrite !pow2_inject in Hln, Hld by lia.
  assert (Hd : 0 < inject_Z (Zpos d)) by reflexivity.
  assert (Ea : n # d == inject_Z n / inject_Z (Zpos d)) by apply Qmake_Qdiv.
  assert (Hup : n # d < 2 ^ (ln - ld + 1)).
  { rewrite Ea. apply Qlt_shift_div_r; [exact Hd |].
    apply Qlt_le_trans with (2 ^ (ln + 1)); [apply Hln |].
    replace (ln + 1)%Z with ((ln - ld + 1) + ld)%Z by lia.
    rewrite pow2_plus. apply Qmult_le_l; [apply pow2_pos | apply Hld]. }
  assert (Hlow : 2 ^ (ln - ld - 1) <= n # d).
  { rewrite Ea. apply Qle_shift_div_l; [exact Hd |].
    apply Qle_trans with (2 ^ ln); [| apply Hln].
    replace ln with ((ln - ld - 1) + (ld + 1))%Z at 2 by lia.
    rewrite pow2_plus. apply Qmult_le_l; [apply pow2_pos |].
    apply Qlt_le_weak, Hld. }
  destruct (Qle_bool (2 ^ (ln - ld)) (n # d)) eqn:E.
  - apply Qle_bool_iff in E. split; assumption.
  - split; [exact Hlow |].
    replace (ln - ld - 1 + 1)%Z with (ln - ld)%Z by lia.
    apply Qnot_le_lt. intros H. apply Qle_bool_iff in H. congruence.
Qed.

Lemma ilog2_unique (a : Q) (e : Z) :
  2 ^ e <= a -> a < 2 ^ (e + 1) -> ilog2 a = e.
Proof.
  intros H1 H2.
  assert (Ha : 0 < a) by (apply Qlt_le_trans with (2 ^ e); [apply pow2_pos | exact H1]).
  destruct (ilog2_spec Ha) as [H3 H4].
  destruct (Z.lt_trichotomy (ilog2 a) e) as [H | [H | H]]; [| exact H |]; exfalso.
  - assert (2 ^ (ilog2 a + 1) <= 2 ^ e) by (apply pow2_le; lia).
    apply (Qlt_irrefl a). apply Qlt_le_trans with (2 ^ (ilog2 a + 1)); [exact H4 |].
    apply Qle_trans with (2 ^ e); assumption.
  - assert (2 ^ (e + 1) <= 2 ^ ilog2 a) by (apply pow2_le; lia).
    apply (Qlt_irrefl a). apply Qlt_le_trans with (2 ^ (e + 1)); [exact H2 |].
    apply Qle_trans with (2 ^ ilog2 a); assumption.
Qed.

Lemma ilog2_eq (a b : Q) : 0 < a -> a == b -> ilog2 a = ilog2 b.
Proof.
  intros Ha E. symmetry. destruct (ilog2_spec Ha) as [H1 H2].
  apply ilog2_unique; rewrite <- E; assumption.
Qed.

Lemma ilog2_le (a b : Q) : 0 < a -> a <= b -> (ilog2 a <= ilog2 b)%Z.
Proof.
  intros Ha Hab.
  assert (Hb : 0 < b) by (apply Qlt_le_trans with a; assumption).
  destruct (ilog2_spec Ha) as [H1 _], (ilog2_spec Hb) as [_ H2].
  assert (H : 2 ^ ilog2 a < 2 ^ (ilog2 b + 1)).
  { apply Qle_lt_trans with a; [exact H1 |].
    apply Qle_lt_trans with b; assumption. }
  apply Qpower_lt_compat_l_inv in H; [lia | reflexivity].
Qed.

(** *** Rounding to a whole number *)

Lemma rne_eq (x y : Q) : x == y -> rne x = rne y.
Proof.
  intros E. unfold rne. rewrite (Qfloor_comp _ _ E).
  assert (Ec : (x - inject_Z (Qfloor y) ?= 1 # 2)
               = (y - inject_Z (Qfloor y) ?= 1 # 2))
    by (apply Qcompare_comp; [rewrite E |]; reflexivity).
  rewrite Ec. reflexivity.
Qed.

Lemma rne_whole (z : Z) : rne (inject_Z z) = z.
Proof.
  unfold rne. rewrite Qfloor_Z.
  assert (Ec : (inject_Z z - inject_Z z ?= 1 # 2) = Lt).
  { apply Qlt_alt. setoid_replace (inject_Z z - inject_Z z) with 0 by ring.
    reflexivity. }
  rewrite Ec. reflexivity.
Qed.

Lemma rne_bounds (x : Q) : (Qfloor x <= rne x <= Qfloor x + 1)%Z.
Proof.
  unfold rne. destruct (x - inject_Z (Qfloor x) ?= 1 # 2); [| lia | lia].
  destruct (Z.even (Qfloor x)); lia.
Qed.

Lemma rne_mono (x y : Q) : x <= y -> (rne x <= rne y)%Z.
Proof.
  intros H. pose proof (Qfloor_resp_le _ _ H) as Hf.
  pose proof (rne_bounds x) as Hx. pose proof (rne_bounds y) as Hy.
  destruct (Z.eq_dec (Qfloor x) (Qfloor y)) as [E | E]; [| lia].
  unfold rne. rewrite <- E.
  destruct (Qcompare_spec (x - inject_Z (Qfloor x)) (1 # 2)) as [Ex | Ex | Ex];
    destruct (Qcompare_spec (y - inject_Z (Qfloor x)) (1 # 2)) as [Ey | Ey | Ey];
    try lia; try (destruct (Z.even (Qfloor x)); lia); exfalso.
  - apply (Qlt_irrefl (1 # 2)). rewrite <- Ex at 1.
    apply Qle_lt_trans with (y - inject_Z (Qfloor x)); [| exact Ey].
    apply Qplus_le_compat; [exact H | apply Qle_refl].
  - apply (Qlt_irrefl (1 # 2)).
    apply Qlt_le_trans with (x - inject_Z (Qfloor x)); [exact Ex |].
    rewrite <- Ey. apply Qplus_le_compat; [exact H | apply Qle_refl].
  - apply (Qlt_irrefl (1 # 2)).
    apply Qlt_le_trans with (x - inject_Z (Qfloor x)); [exact Ex |].
    apply Qle_trans with (y - inject_Z (Qfloor x)); [| apply Qlt_le_weak, Ey].
    apply Qplus_le_compat; [exact H | apply Qle_refl].
Qed.

Lemma rne_ge (z : Z) (x : Q) : inject_Z z <= x -> (z <= rne x)%Z.
Proof. intros H. rewrite <- (rne_whole z). apply rne_mono, H. Qed.

Lemma rne_le (z : Z) (x : Q) : x <= inject_Z z -> (rne x <= z)%Z.
Proof. intros H. rewrite <- (rne_whole z). apply rne_mono, H. Qed.

(** *** Positive numbers *)

Lemma pow2_52 : 2 ^ 52 == inject_Z (2 ^ 52).
Proof. reflexivity. Qed.

Lemma pow2_53 : 2 ^ 53 == inject_Z (2 ^ 53).
Proof. reflexivity. Qed.

(** The significand of a positive number lies between 2^52 and 2^53. *)
Lemma significand_bounds (a : Q) :
  0 < a ->
  let c := (ilog2 a - 52)%Z in
  2 ^ 52 <= a / 2 ^ c /\ a / 2 ^ c < 2 ^ 53
  /\ (2 ^ 52 <= rne (a / 2 ^ c) <= 2 ^ 53)%Z.
Proof.
  intros Ha c. destruct (ilog2_spec Ha) as [H1 H2].
  assert (Hlo : 2 ^ 52 <= a / 2 ^ c).
  { apply Qle_shift_div_l; [apply pow2_pos |].
    rewrite <- pow2_plus. replace (52 + c)%Z with (ilog2 a) by (unfold c; lia).
    exact H1. }
  assert (Hhi : a / 2 ^ c < 2 ^ 53).
  { apply Qlt_shift_div_r; [apply pow2_pos |].
    rewrite <- pow2_plus. replace (53 + c)%Z with (ilog2 a + 1)%Z by (unfold c; lia).
    exact H2. }
  repeat split; try assumption.
  - apply rne_ge. rewrite <- pow2_52. exact Hlo.
  - apply rne_le. rewrite <- pow2_53. apply Qlt_le_weak, Hhi.
Qed.

Lemma round_pos_bounds (a : Q) :
  0 < a -> 2 ^ ilog2 a <= round_pos a /\ round_pos a <= 2 ^ (ilog2 a + 1).
Proof.
  intros Ha. destruct (significand_bounds Ha) as (_ & _ & Hm).
  unfold round_pos. set (c := (ilog2 a - 52)%Z) in *.
  set (m := rne (a / 2 ^ c)) in *. split.
  - replace (ilog2 a) with (52 + c)%Z at 1 by (unfold c; lia).
    rewrite pow2_plus. apply Qmult_le_compat_r; [| apply Qlt_le_weak, pow2_pos].
    rewrite pow2_52, <- Zle_Qle. apply Hm.
  - replace (ilog2 a + 1)%Z with (53 + c)%Z by (unfold c; lia).
    rewrite pow2_plus. apply Qmult_le_compat_r; [| apply Qlt_le_weak, pow2_pos].
    rewrite pow2_53, <- Zle_Qle. apply Hm.
Qed.

Lemma round_pos_pos (a : Q) : 0 < a -> 0 < round_pos a.
Proof.
  intros Ha. apply Qlt_le_trans with (2 ^ ilog2 a); [apply pow2_pos |].
  apply round_pos_bounds, Ha.
Qed.

Lemma round_pos_eq (a b : Q) : 0 < a -> a == b -> round_pos a = round_pos b.
Proof.
  intros Ha E. unfold round_pos. rewrite <- (ilog2_eq Ha E).
  f_equal. f_equal. apply rne_eq. unfold Qdiv.
  apply Qmult_comp; [exact E | reflexivity].
Qed.

Lemma round_pos_mono (a b : Q) :
  0 < a -> a <= b -> round_pos a <= round_pos b.
Proof.
  intros Ha Hab.
  assert (Hb : 0 < b) by (apply Qlt_le_trans with a; assumption).
  pose proof (ilog2_le Ha Hab) as He.
  destruct (Z.eq_dec (ilog2 a) (ilog2 b)) as [E | E].
  - unfold round_pos. rewrite E.
    apply Qmult_le_compat_r; [| apply Qlt_le_weak, pow2_pos].
    rewrite <- Zle_Qle. apply rne_mono.
    apply Qmult_le_compat_r; [exact Hab |].
    apply Qlt_le_weak, Qinv_lt_0_compat, pow2_pos.
  - apply Qle_trans with (2 ^ (ilog2 a + 1)); [apply round_pos_bounds, Ha |].
    apply Qle_trans with (2 ^ ilog2 b); [apply pow2_le; lia |].
    apply round_pos_bounds, Hb.
Qed.

(** A number whose significand is a whole number is not changed. *)
Lemma round_pos_fixed (a : Q) (m : Z) :
  a / 2 ^ (ilog2 a - 52) == inject_Z m -> round_pos a == a.
Proof.
  intros E. unfold round_pos. rewrite (rne_eq E), rne_whole, <- E.
  field. apply pow2_nonzero.
Qed.

(** A whole number times a power of 2 is not changed when the whole number
    has 53 bits. *)
Lemma round_pos_float (m c : Z) :
  (2 ^ 52 <= m <= 2 ^ 53)%Z -> round_pos (inject_Z m * 2 ^ c) == inject_Z m * 2 ^ c.
Proof.
  intros Hm. destruct (Z.eq_dec m (2 ^ 53)) as [E | E].
  - assert (El : ilog2 (inject_Z m * 2 ^ c) = (53 + c)%Z).
    { apply ilog2_unique.
      - rewrite pow2_plus, pow2_53, E. apply Qle_refl.
      - rewrite E, <- pow2_53, <- pow2_plus.
        apply Qpower_lt_compat_l; [lia | reflexivity]. }
    apply (@round_pos_fixed _ (2 ^ 52)). rewrite El.
    replace (53 + c - 52)%Z with (1 + c)%Z by lia.
    rewrite E, pow2_plus. field_simplify_eq; [reflexivity |].
    apply pow2_nonzero.
  - assert (El : ilog2 (inject_Z m * 2 ^ c) = (52 + c)%Z).
    { apply ilog2_unique.
      - rewrite pow2_plus. apply Qmult_le_compat_r; [| apply Qlt_le_weak, pow2_pos].
        rewrite pow2_52, <- Zle_Qle. lia.
      - replace (52 + c + 1)%Z with (53 + c)%Z by lia. rewrite pow2_plus.
        apply Qmult_lt_compat_r; [apply pow2_pos |].
        rewrite pow2_53, <- Zlt_Qlt. lia. }
    apply (@round_pos_fixed _ m). rewrite El.
    replace (52 + c - 52)%Z with c by lia.
    field. apply pow2_nonzero.
Qed.

Lemma round_pos_idem (a : Q) : 0 < a -> round_pos (round_pos a) == round_pos a.
Proof.
  intros Ha. destruct (significand_bounds Ha) as (_ & _ & Hm).
  unfold round_pos at 2 3. apply round_pos_float, Hm.
Qed.

Lemma round_pos_whole (z : Z) :
  (0 < z <= 2 ^ 53)%Z -> round_pos (inject_Z z) == inject_Z z.
Proof.
  intros Hz.
  assert (El : ilog2 (inject_Z z) = Z.log2 z).
  { destruct (Z.log2_spec z) as [H1 H2]; [lia |].
    pose proof (Z.log2_nonneg z).
    apply ilog2_unique.
    - rewrite <- pow2_inject, <- Zle_Qle by lia. exact H1.
    - rewrite <- pow2_inject, <- Zlt_Qlt by lia.
      replace (Z.log2 z + 1)%Z with (Z.succ (Z.log2 z)) by lia. exact H2. }
  assert (Hl : (0 <= Z.log2 z <= 53)%Z).
  { split; [apply Z.log2_nonneg |].
    rewrite <- (Z.log2_pow2 53) by lia. apply Z.log2_le_mono. lia. }
  destruct (Z.eq_dec (Z.log2 z) 53) as [E | E].
  - assert (z = 2 ^ 53)%Z.
    { destruct (Z.log2_spec z) as [H1 _]; [lia |]. rewrite E in H1. lia. }
    subst z. apply (@round_pos_fixed _ (2 ^ 52)). rewrite El, E. reflexivity.
  - apply (@round_pos_fixed _ (z * 2 ^ (52 - Z.log2 z))). rewrite El.
    rewrite inject_Z_mult, pow2_inject by lia.
    replace (Z.log2 z - 52)%Z with (- (52 - Z.log2 z))%Z by lia.
    rewrite Qpower_opp. field. apply pow2_nonzero.
Qed.

(** *** Numbers of either sign *)

Lemma round53_pos (q : Q) : 0 < q -> round53 q = Qred (round_pos q).
Proof.
  intros H. unfold round53.
  destruct (Qcompare_spec q 0) as [E | H' | _]; [| | reflexivity]; exfalso.
  - rewrite E in H. apply (Qlt_irrefl 0 H).
  - apply (Qlt_irrefl q). apply Qlt_trans with 0; assumption.
Qed.

Lemma round53_neg (q : Q) : q < 0 -> round53 q = Qred (- round_pos (- q)).
Proof.
  intros H. unfold round53.
  destruct (Qcompare_spec q 0) as [E | _ | H']; [| reflexivity |]; exfalso.
  - rewrite E in H. apply (Qlt_irrefl 0 H).
  - apply (Qlt_irrefl q). apply Qlt_trans with 0; assumption.
Qed.

Lemma round53_zero (q : Q) : q == 0 -> round53 q = 0.
Proof.
  intros H. unfold round53.
  destruct (Qcompare_spec q 0) as [_ | H' | H']; [reflexivity | |]; exfalso;
    rewrite H in H'; apply (Qlt_irrefl 0 H').
Qed.

Lemma neg_pos (q : Q) : q < 0 -> 0 < - q.
Proof. intros H. apply Qopp_lt_compat in H. exact H. Qed.

Lemma round53_eq (a b : Q) : a == b -> round53 a = round53 b.
Proof.
  intros E. destruct (Q_dec a 0) as [[H | H] | H].
  - rewrite (round53_neg H), round53_neg by (rewrite <- E; exact H).
    f_equal. f_equal. apply round_pos_eq; [apply neg_pos, H |].
    rewrite E. reflexivity.
  - rewrite (round53_pos H), round53_pos by (rewrite <- E; exact H).
    f_equal. apply round_pos_eq; assumption.
  - rewrite (round53_zero H), round53_zero by (rewrite <- E; exact H).
    reflexivity.
Qed.

Lemma round53_sign (q : Q) :
  (q < 0 -> round53 q < 0) /\ (0 < q -> 0 < round53 q).
Proof.
  split; intros H.
  - rewrite (round53_neg H), Qred_correct.
    pose proof (round_pos_pos (neg_pos H)) as Hp.
    apply Qopp_lt_compat in Hp. exact Hp.
  - rewrite (round53_pos H), Qred_correct. apply round_pos_pos, H.
Qed.

Lemma round53_mono (a b : Q) : a <= b -> round53 a <= round53 b.
Proof.
  intros Hab.
  destruct (Q_dec a 0) as [[Ha | Ha] | Ha], (Q_dec b 0) as [[Hb | Hb] | Hb].
  - rewrite (round53_neg Ha), (round53_neg Hb), !Qred_correct.
    apply Qopp_le_compat, round_pos_mono; [apply neg_pos, Hb |].
    apply Qopp_le_compat, Hab.
  - apply Qlt_le_weak. apply Qlt_trans with 0; apply round53_sign; assumption.
  - rewrite (round53_zero Hb). apply Qlt_le_weak, round53_sign, Ha.
  - exfalso. apply (Qlt_irrefl 0). apply Qlt_le_trans with a; [exact Ha |].
    apply Qle_trans with b; [exact Hab | apply Qlt_le_weak, Hb].
  - rewrite (round53_pos Ha), (round53_pos Hb), !Qred_correct.
    apply round_pos_mono; assumption.
  - exfalso. apply (Qlt_irrefl 0). apply Qlt_le_trans with a; [exact Ha |].
    rewrite <- Hb. exact Hab.
  - exfalso. apply (Qlt_irrefl 0). rewrite <- Ha at 1.
    apply Qle_lt_trans with b; assumption.
  - rewrite (round53_zero Ha). apply Qlt_le_weak, round53_sign, Hb.
  - rewrite (round53_zero Ha), (round53_zero Hb). apply Qle_refl.
Qed.

Lemma round53_idem (q : Q) : round53 (round53 q) == round53 q.
Proof.
  destruct (Q_dec q 0) as [[H | H] | H].
  - pose proof (proj1 (round53_sign q) H) as Hs.
    rewrite (round53_neg Hs). rewrite (round53_neg H) at 2.
    rewrite !Qred_correct. apply Qopp_comp.
    assert (E : - round53 q == round_pos (- q)).
    { rewrite (round53_neg H), Qred_correct. apply Qopp_involutive. }
    rewrite (round_pos_eq (neg_pos Hs) E).
    apply round_pos_idem, neg_pos, H.
  - pose proof (proj2 (round53_sign q) H) as Hs.
    rewrite (round53_pos Hs). rewrite (round53_pos H) at 2.
    rewrite !Qred_correct.
    assert (E : round53 q == round_pos q).
    { rewrite (round53_pos H). apply Qred_correct. }
    rewrite (round_pos_eq Hs E). apply round_pos_idem, H.
  - rewrite (round53_zero H). reflexivity.
Qed.

Lemma round53_whole (z : Z) :
  (Z.abs z <= 2 ^ 53)%Z -> round53 (inject_Z z) == inject_Z z.
Proof.
  intros Hz. destruct (Z.lt_trichotomy z 0) as [H | [H | H]].
  - assert (Hq : inject_Z z < 0)
      by (change 0 with (inject_Z 0); rewrite <- Zlt_Qlt; exact H).
    rewrite (round53_neg Hq), Qred_correct.
    assert (E : - inject_Z z == inject_Z (- z)) by (rewrite inject_Z_opp; reflexivity).
    rewrite (round_pos_eq (neg_pos Hq) E), round_pos_whole by lia.
    rewrite inject_Z_opp. apply Qopp_involutive.
  - subst z. reflexivity.
  - assert (Hq : 0 < inject_Z z)
      by (change 0 with (inject_Z 0); rewrite <- Zlt_Qlt; exact H).
    rewrite (round53_pos Hq), Qred_correct. apply round_pos_whole. lia.
Qed.

(** ** The order of summation *)

Section SummationOrder.
Variable A : arithmetic.
Let add (x y : Q) : Q := rnd A (x + y).

Lemma sums_to_permutation (l l' : list Q) (x : Q) :
  Permutation l l' -> sums_to A l x -> sums_to A l' x.
Proof.
  intros Hp H. destruct H as [| y | l l1 l2 y z Hl H1 H2].
  - apply Permutation_nil in Hp. subst l'. constructor.
  - apply Permutation_length_1_inv in Hp. subst l'. constructor.
  - apply (@sums_add A l' l1 l2 y z); [| assumption | assumption].
    apply Permutation_trans with l; [apply Permutation_sym, Hp | exact Hl].
Qed.

Lemma sums_to_add (l1 l2 : list Q) (x y : Q) :
  sums_to A l1 x -> sums_to A l2 y -> sums_to A (l1 ++ l2) (add x y).
Proof. intros H1 H2. apply (@sums_add A (l1 ++ l2) l1 l2 x y); auto. Qed.

Lemma sequential_sums (l l0 : list Q) (acc : Q) :
  sums_to A l0 acc -> sums_to A (l0 ++ l) (sequential add acc l).
Proof.
  revert l0 acc. induction l as [|x l IH]; intros l0 acc H; simpl.
  - rewrite app_nil_r. exact H.
  - replace (l0 ++ x :: l) with ((l0 ++ [x]) ++ l)
      by (rewrite <- app_assoc; reflexivity).
    apply IH. apply sums_to_add; [exact H | constructor].
Qed.

(** One more element into each accumulator. *)
Lemma accumulators_step (gs : list (list Q)) (acc b : list Q) :
  Forall2 (sums_to A) gs acc -> length b = length acc ->
  Forall2 (sums_to A)
          (map (fun gx => fst gx ++ [snd gx]) (combine gs b))
          (map (fun xy => add (fst xy) (snd xy)) (combine acc b))
  /\ Permutation (concat (map (fun gx => fst gx ++ [snd gx]) (combine gs b)))
                 (concat gs ++ b).
Proof.
  intros H. revert b. induction H as [|g a gs acc Hg _ IH]; intros b Hb.
  - destruct b; [| discriminate]. split; [constructor | constructor].
  - destruct b as [|x b]; [discriminate |]. simpl in Hb.
    destruct (IH b) as [IH1 IH2]; [lia |]. simpl. split.
    + constructor; [| exact IH1]. apply sums_to_add; [exact Hg | constructor].
    + rewrite <- !app_assoc. apply Permutation_app_head.
      simpl. apply Permutation_trans with (x :: concat gs ++ b).
      * apply perm_skip, IH2.
      * apply Permutation_middle.
Qed.

Lemma accumulate8_sums (fuel : nat) (gs : list (list Q)) (acc l acc' rest : list Q) :
  accumulate8 add fuel acc l = (acc', rest) ->
  Forall2 (sums_to A) gs acc -> length acc = 8%nat ->
  exists gs',
    Forall2 (sums_to A) gs' acc' /\ length acc' = 8%nat
    /\ Permutation (concat gs' ++ rest) (concat gs ++ l).
Proof.
  revert gs acc l. induction fuel as [|fuel IH]; intros gs acc l E Hgs Hlen.
  - cbn [accumulate8] in E. injection E as <- <-. exists gs. auto.
  - cbn [accumulate8] in E. destruct (Nat.ltb_spec (length l) 8) as [Hl | Hl].
    + injection E as <- <-. exists gs. auto.
    + assert (Hb : length (firstn 8 l) = length acc)
        by (rewrite length_firstn; lia).
      destruct (accumulators_step (firstn 8 l) Hgs Hb) as [H1 H2].
      destruct (IH _ _ _ E H1) as (gs' & Hgs' & Hlen' & Hp).
      { rewrite length_map, length_combine, Hb. lia. }
      exists gs'. repeat split; try assumption.
      apply Permutation_trans with (1 := Hp).
      apply Permutation_trans with ((concat gs ++ firstn 8 l) ++ skipn 8 l).
      * apply Permutation_app_tail, H2.
      * rewrite <- app_assoc, firstn_skipn. apply Permutation_refl.
Qed.

Lemma singletons_sums (b : list Q) :
  Forall2 (sums_to A) (map (fun x => [x]) b) b
  /\ concat (map (fun x => [x]) b) = b.
Proof.
  induction b as [|x b [IH1 IH2]]; simpl.
  - split; [constructor | reflexivity].
  - split; [constructor; [constructor | exact IH1] | rewrite IH2; reflexivity].
Qed.

Lemma unrolled_sums (l : list Q) :
  (8 <= length l)%nat -> sums_to A l (unrolled add 0 l).
Proof.
  intros Hl. unfold unrolled.
  destruct (accumulate8 add (length l) (firstn 8 l) (skipn 8 l))
    as [acc rest] eqn:E.
  destruct (singletons_sums (firstn 8 l)) as [Hs Ec].
  destruct (@accumulate8_sums _ _ _ _ _ _ E Hs) as (gs & Hgs & Hlen & Hp).
  { rewrite length_firstn. lia. }
  rewrite Ec, firstn_skipn in Hp.
  destruct acc as [|a0 [|a1 [|a2 [|a3 [|a4 [|a5 [|a6 [|a7 [|]]]]]]]]];
    try discriminate.
  inversion Hgs as [| g0 ? gs0 ? H0 Hgs0]; subst.
  inversion Hgs0 as [| g1 ? gs1 ? H1 Hgs1]; subst.
  inversion Hgs1 as [| g2 ? gs2 ? H2 Hgs2]; subst.
  inversion Hgs2 as [| g3 ? gs3 ? H3 Hgs3]; subst.
  inversion Hgs3 as [| g4 ? gs4 ? H4 Hgs4]; subst.
  inversion Hgs4 as [| g5 ? gs5 ? H5 Hgs5]; subst.
  inversion Hgs5 as [| g6 ? gs6 ? H6 Hgs6]; subst.
  inversion Hgs6 as [| g7 ? gs7 ? H7 Hgs7]; subst.
  inversion Hgs7; subst. cbn [nth].
  apply (@sums_to_permutation
           ((((g0 ++ g1) ++ (g2 ++ g3)) ++ ((g4 ++ g5) ++ (g6 ++ g7))) ++ rest)).
  - apply Permutation_trans with (2 := Hp). apply Permutation_app_tail.
    simpl. rewrite app_nil_r, <- !app_assoc. apply Permutation_refl.
  - apply sequential_sums. repeat apply sums_to_add; assumption.
Qed.

Lemma pairwise_sums (fuel : nat) (l : list Q) :
  sums_to A l (pairwise_sum add 0 fuel l).
Proof.
  revert l. induction fuel as [|fuel IH]; intros l; simpl;
    destruct (Nat.ltb_spec (length l) 8) as [H8 | H8];
    try (apply (@sequential_sums l [] 0); constructor);
    destruct (length l <=? 128)%nat; try (apply unrolled_sums, H8).
  rewrite <- (firstn_skipn (length l / 2 - (length l / 2) mod 8) l) at 1.
  apply sums_to_add; apply IH.
Qed.

(** [np.sum] adds the elements of the array, each one once, by rounded
    additions. *)
Lemma np_add_reduce_sums (l : list Q) : sums_to A l (np_add_reduce add 0 l).
Proof.
  unfold np_add_reduce. apply (@sums_to_add [] l); [constructor |].
  apply pairwise_sums.
Qed.

End SummationOrder.

(** Rounding to 53 significant bits, with NumPy's order of summation, is an
    arithmetic of the kind that the theorems on the rounded semantics are
    about. *)
Lemma binary53_ieee : ieee binary53.
Proof.
  constructor; cbn [rnd fsum binary53].
  - apply round53_eq.
  - apply round53_idem.
  - apply round53_mono.
  - apply round53_whole.
  - intros l. apply (np_add_reduce_sums binary53).
Qed.

(** * Properties of the specification *)



(** C8: on an all-zero input of length at least 3, [agreement] returns 0
    and the weight of a layer is never computed: the number of cases is 0,
    the first pattern vector is all-zero, and the first pass through the body
    breaks, so the loop ends in the state it started from, without a call of
    the helper. *)
Theorem all_zero_returns_zero (l : list Z) :
  (3 <= length l)%nat -> all_zero l ->
  Exact.agreement (IntArray l) = Ok (Exact.Fin 0)
  /\ np_sum l = 0%Z
  /\ all_zero (Exact.pattern_of l)
  /\ Exact.body (np_sum l) (initial l) = Exact.Break
  /\ Exact.agreement_run (IntArray l) = Ok (initial l).
Proof.
  intros Hk Hz. pose proof (all_zero_nonneg Hz) as Hn.
  assert (Hb : Exact.body (np_sum l) (initial l) = Exact.Break).
  { destruct (body_cases (np_sum l) (initial l) Hn Hk) as [[_ E] | (Hnz & _)];
      [exact E | contradiction]. }
  assert (Hrun : Exact.agreement_run (IntArray l) = Ok (initial l)).
  { rewrite (agreement_run_valid Hk Hn).
    destruct (length l) as [|k] eqn:El; [lia |]. simpl. rewrite Hb. reflexivity. }
  repeat split; try assumption.
  - unfold Exact.agreement. rewrite Hrun. reflexivity.
  - apply all_zero_sum, Hz.
  - unfold all_zero, Exact.pattern_of in *. apply Forall_map.
    revert Hz. apply Forall_impl. intros x ->. reflexivity.
Qed.

Lemma all_zero_returns_zero_witness :
  (3 <= length [0; 0; 0; 0; 0]%Z)%nat /\ all_zero [0; 0; 0; 0; 0]%Z
  /\ Exact.agreement (IntArray [0; 0; 0; 0; 0]%Z) = Ok (Exact.Fin 0).
Proof.
  assert (Hk : (3 <= length [0; 0; 0; 0; 0]%Z)%nat) by (simpl; lia).
  assert (Hz : all_zero [0; 0; 0; 0; 0]%Z) by (repeat constructor).
  split; [exact Hk |]. split; [exact Hz |].
  exact (proj1 (all_zero_returns_zero Hk Hz)).
Defined.

(** C9: on a valid input [agreement] hands to [_pattern_agreement] only
    vectors with entries 0 and 1, the helper returns a value on each of
    them, and [agreement] does not end with the helper's error. *)
Theorem invalid_pattern_unreachable (l : list Z) :
  (3 <= length l)%nat -> nonneg l ->
  exists st',
    Exact.agreement_run (IntArray l) = Ok st'
    /\ Forall (fun p => binary p
                        /\ exists a, Exact._pattern_agreement p = Ok a)
              (Exact.calls st')
    /\ Exact.agreement (IntArray l) <> Err InvalidPatternError.
Proof.
  intros Hk Hn.
  destruct (agreement_run_runs Hk Hn) as (i & st' & E & _ & _ & _ & _ & Hw).
  exists st'. repeat split; [assumption | |].
  - destruct Hw as (_ & _ & Hc). revert Hc. apply Forall_impl.
    intros p [Hb Hl]. split; [assumption |].
    destruct (@pattern_agreement_formula p Hb) as (q & Eq & _); [lia | eauto].
  - unfold Exact.agreement. rewrite E. discriminate.
Qed.

Lemma invalid_pattern_unreachable_witness :
  (3 <= length [3; 0; 1; 3]%Z)%nat /\ nonneg [3; 0; 1; 3]%Z
  /\ exists st',
    Exact.agreement_run (IntArray [3; 0; 1; 3]%Z) = Ok st'
    /\ Forall (fun p => binary p
                        /\ exists a, Exact._pattern_agreement p = Ok a)
              (Exact.calls st')
    /\ Exact.agreement (IntArray [3; 0; 1; 3]%Z) <> Err InvalidPatternError.
Proof.
  assert (Hk : (3 <= length [3; 0; 1; 3]%Z)%nat) by (simpl; lia).
  assert (Hn : nonneg [3; 0; 1; 3]%Z) by (repeat constructor; lia).
  split; [exact Hk |]. split; [exact Hn |].
  exact (invalid_pattern_unreachable Hk Hn).
Defined.

(** C10: on every call of [_pattern_agreement] that [agreement] makes on a
    valid input, the divisor k - 1 is not zero, the divisor
    (k-2)*(tu+tdu) is not zero when the counters are not both zero, the value
    of line 61 is a finite number, so the test for a value that is not a
    number fails, and the helper returns that value, or 1 when s = 1. *)
Theorem calls_never_nan (l : list Z) :
  (3 <= length l)%nat -> nonneg l ->
  exists st',
    Exact.agreement_run (IntArray l) = Ok st'
    /\ Forall (fun p =>
         let k := Z.of_nat (length p) in
         (3 <= k)%Z /\ binary p
         /\ (k - 1 <> 0)%Z
         /\ (forall tdu tu, count_triplets p = (tdu, tu) ->
               (tu + tdu <> 0 -> (k - 2) * (tu + tdu) <> 0)%Z)
         /\ exists q,
              Exact.raw_agreement p = Ok (Exact.Fin q)
              /\ Exact.isnan (Exact.Fin q) = false
              /\ Exact._pattern_agreement p
                 = Ok (if (np_sum p =? 1)%Z then Exact.Fin 1 else Exact.Fin q))
       (Exact.calls st').
Proof.
  intros Hk Hn.
  destruct (agreement_run_runs Hk Hn) as (i & st' & E & _ & _ & _ & _ & Hw).
  exists st'. split; [assumption |].
  destruct Hw as (_ & _ & Hc). revert Hc. apply Forall_impl.
  intros p [Hb Hl]. split; [lia |]. split; [assumption |].
  apply call_arithmetic; [assumption | lia].
Qed.

Lemma calls_never_nan_witness :
  (3 <= length [2; 0; 1]%Z)%nat /\ nonneg [2; 0; 1]%Z
  /\ exists st',
    Exact.agreement_run (IntArray [2; 0; 1]%Z) = Ok st'
    /\ Forall (fun p =>
         let k := Z.of_nat (length p) in
         (3 <= k)%Z /\ binary p
         /\ (k - 1 <> 0)%Z
         /\ (forall tdu tu, count_triplets p = (tdu, tu) ->
               (tu + tdu <> 0 -> (k - 2) * (tu + tdu) <> 0)%Z)
         /\ exists q,
              Exact.raw_agreement p = Ok (Exact.Fin q)
              /\ Exact.isnan (Exact.Fin q) = false
              /\ Exact._pattern_agreement p
                 = Ok (if (np_sum p =? 1)%Z then Exact.Fin 1 else Exact.Fin q))
       (Exact.calls st').
Proof.
  assert (Hk : (3 <= length [2; 0; 1]%Z)%nat) by (simpl; lia).
  assert (Hn : nonneg [2; 0; 1]%Z) by (repeat constructor; lia).
  split; [exact Hk |]. split; [exact Hn |].
  exact (calls_never_nan Hk Hn).
Defined.

(** C5 as stated fails in binary64: the int64 vector (2^53 + 1, 1, 0) is
    mapped to 1.0 and three times that vector to 0.9999999999999998. *)
Lemma scale_invariance_binary64_counterexample :
  map (Z.mul 3) [9007199254740993; 1; 0]%Z = [27021597764222979; 3; 0]%Z
  /\ F64.agreement (IntArray [9007199254740993; 1; 0]%Z) = Ok 1%float
  /\ F64.agreement (IntArray (map (Z.mul 3) [9007199254740993; 1; 0]%Z))
     = Ok (0x1.ffffffffffffep-1)%float
  /\ PrimFloat.ltb (0x1.ffffffffffffep-1)%float 1%float = true.
Proof. repeat split; vm_compute; reflexivity. Qed.

(** C6: on a valid input of length k the layer loop returns after at most
    k passes through its body, with an all-zero remainder, whatever the
    size of the counts; and every pass that is executed subtracts the least
    positive entry of the remainder from each nonzero entry, the difference
    being rounded, which empties at least one category that was not
    empty. *)
Theorem layer_loop_terminates (A : arithmetic) (l : list Z) :
  ieee A -> (3 <= length l)%nat -> nonneg l ->
  let n := fsum A (map (Rounded.of_int A) l) in
  (exists i st',
      Rounded.agreement_run A (IntArray l) = Ok st'
      /\ rounded_runs A n i (Rounded.initial A l) st'
      /\ (i <= length l)%nat
      /\ Forall (fun x => x == 0) (Rounded.r st'))
  /\ (forall j st1 st2,
         rounded_runs A n j (Rounded.initial A l) st1 ->
         Rounded.body A n st1 = Rounded.Next st2 ->
         let m := Rounded.min_positive (Rounded.r st1) in
         0 < m
         /\ Forall (fun x => x == 0 \/ m <= x) (Rounded.r st1)
         /\ Rounded.r st2 = map (lose A m) (Rounded.r st1)
         /\ (active (Rounded.r st2) < active (Rounded.r st1))%nat
         /\ exists pos, 0 < nth pos (Rounded.r st1) 0
                        /\ nth pos (Rounded.r st2) 0 == 0).
Proof.
  intros HA Hk Hn n.
  assert (Hinit : Forall (float_nonneg A) (Rounded.r (Rounded.initial A l))
                  /\ length (Rounded.r (Rounded.initial A l)) = length l
                  /\ (0 < length l)%nat).
  { simpl. rewrite length_map. repeat split; [| lia].
    apply (floats_initial HA), Hn. }
  split.
  - rewrite (rounded_agreement_run_valid A Hk Hn). fold n.
    destruct (@rounded_loop_runs A HA n (length l) (Rounded.initial A l))
      as (i & st' & El & Hr & Hi & Hz).
    + apply Hinit.
    + simpl. destruct l; [simpl in Hk; lia | discriminate].
    + destruct Hinit as (_ & <- & _). apply active_le_length.
    + exists i, st'. repeat split; try assumption.
      pose proof (active_le_length (Rounded.r (Rounded.initial A l))) as Hle.
      destruct Hinit as (_ & Hl & _). lia.
  - intros j st1 st2 Hr Hb.
    destruct (rounded_runs_floats HA Hr Hinit) as (Hf1 & Hl1 & _).
    destruct (rounded_body_cases HA n st1 Hf1) as [[_ E] | (Hz & a & _ & E)].
    { intros E. rewrite E in Hl1. simpl in Hl1. lia. }
    { rewrite E in Hb. discriminate. }
    rewrite E in Hb. injection Hb as <-.
    destruct (rounded_min_positive_spec (floats_nonneg Hf1) Hz)
      as (Hm & Hin & Hle).
    destruct (taken_facts HA n st1 a Hf1 Hz) as (_ & _ & Hlt).
    repeat split; try assumption.
    destruct (In_nth _ _ 0 Hin) as (pos & Hlen & Hpos).
    exists pos. simpl Rounded.r. split; [rewrite Hpos; exact Hm |].
    rewrite (nth_indep (map (lose A (Rounded.min_positive (Rounded.r st1)))
                            (Rounded.r st1))
                       0 (lose A (Rounded.min_positive (Rounded.r st1)) 0))
      by (rewrite length_map; exact Hlen).
    rewrite map_nth, Hpos. apply (lose_self HA).
Qed.

Lemma layer_loop_terminates_witness :
  ieee binary53 /\ (3 <= length [2; 0; 1]%Z)%nat /\ nonneg [2; 0; 1]%Z
  /\ exists i st',
      Rounded.agreement_run binary53 (IntArray [2; 0; 1]%Z) = Ok st'
      /\ rounded_runs binary53
           (fsum binary53
                 (map (Rounded.of_int binary53) [2; 0; 1]%Z))
           i (Rounded.initial binary53 [2; 0; 1]%Z) st'
      /\ (i <= length [2; 0; 1]%Z)%nat
      /\ Forall (fun x => x == 0) (Rounded.r st').
Proof.
  assert (Hk : (3 <= length [2; 0; 1]%Z)%nat) by (simpl; lia).
  assert (Hn : nonneg [2; 0; 1]%Z) by (repeat constructor; lia).
  split; [exact binary53_ieee |]. split; [exact Hk |]. split; [exact Hn |].
  exact (proj1 (layer_loop_terminates binary53_ieee Hk Hn)).
Defined.

(** C3: on a valid vector with exactly one nonzero entry, whatever its
    length, the position of the entry and its size, [agreement] returns
    exactly 1.0: the layer is the float copy [f] of the entry, its weight is
    the rounded quotient of [f] by itself, and the helper returns 1.0;
    and in the helper, when the entries sum to 1, the value returned is 1.0
    whatever the formula of line 61 produced. *)
Theorem single_category_is_one (A : arithmetic) :
  ieee A ->
  (forall l : list Z,
      (3 <= length l)%nat -> nonneg l -> nonzeros l = 1%nat ->
      exists q, Rounded.agreement A (IntArray l) = Ok (Rounded.Fin q)
                /\ q == 1)
  /\ (forall (p : list Z) (mx : Z) (a : Rounded.fval),
         np_max p = Some mx -> (mx <= 1)%Z -> np_sum p = 1%Z ->
         Rounded.raw_agreement A p = Ok a ->
         Rounded._pattern_agreement A p = Ok (Rounded.Fin 1)).
Proof.
  intros HA. split; [| apply rounded_override].
  intros l Hk Hn H1.
  set (st0 := Rounded.initial A l).
  set (n := fsum A (map (Rounded.of_int A) l)).
  assert (Hf : Forall (float_nonneg A) (Rounded.r st0))
    by (apply (floats_initial HA), Hn).
  assert (Hact : active (Rounded.r st0) = 1%nat)
    by (simpl; rewrite (active_copy HA Hn); exact H1).
  assert (Hz : ~ Forall (fun x => x == 0) (Rounded.r st0)).
  { intros Hz. apply active_zero in Hz. lia. }
  assert (Hr : Rounded.r st0 <> []).
  { simpl. destruct l; [simpl in Hk; lia | discriminate]. }
  destruct (rounded_min_positive_spec (floats_nonneg Hf) Hz) as (Hm & Hin & _).
  set (m := Rounded.min_positive (Rounded.r st0)) in *.
  assert (Hm0 : ~ m == 0) by (intros E; rewrite E in Hm; discriminate Hm).
  assert (Hmf : rnd A m == m) by (apply (min_positive_float Hf Hz)).
  (* the first pass takes the only layer *)
  destruct (rounded_body_cases HA n st0 Hf Hr) as [[Hz' _] | (_ & a & Ea & E0)];
    [contradiction |].
  assert (Ea1 : Rounded._pattern_agreement A (Rounded.pattern_of (Rounded.r st0))
                = Ok (Rounded.Fin 1)).
  { destruct (@binary_np_max (Rounded.pattern_of (Rounded.r st0))
                (rounded_pattern_binary _)) as (mx & Emx & Hmx).
    { destruct (Rounded.r st0); [congruence | discriminate]. }
    destruct (rounded_raw_agreement_returns A (Rounded.pattern_of (Rounded.r st0)))
      as (a0 & Eraw).
    apply (@rounded_override A _ mx a0 Emx); [lia | | exact Eraw].
    rewrite rounded_pattern_sum, Hact. reflexivity. }
  rewrite Ea1 in Ea. injection Ea as <-.
  (* the second pass breaks *)
  destruct (taken_facts HA n st0 (Rounded.Fin 1) Hf Hz) as (Hf1 & Hl1 & Hlt).
  set (st1 := taken A n st0 (Rounded.Fin 1)) in *.
  assert (Hz1 : Forall (fun x => x == 0) (Rounded.r st1))
    by (apply active_zero; lia).
  assert (E1 : Rounded.body A n st1 = Rounded.Break).
  { destruct (rounded_body_cases HA n st1 Hf1) as [[_ E] | (Hz' & _)].
    - intros E. rewrite E in Hl1. destruct (Rounded.r st0); [congruence | discriminate].
    - exact E.
    - contradiction. }
  unfold Rounded.agreement. rewrite (rounded_agreement_run_valid A Hk Hn).
  fold n st0. destruct (length l) as [|[|k]] eqn:El; [lia | lia |].
  simpl Rounded.loop. rewrite E0, E1. cbn [rmap bind]. unfold st1, taken.
  cbn [Rounded.aa]. fold m.
  (* the weight is f / f *)
  destruct (layer_single HA Hmf Hm0 (Rounded.r st0)) as (Hlayer & Hal).
  assert (Es : fsum A (map (fun x => rnd A (Rounded.of_int A x * m))
                           (Rounded.pattern_of (Rounded.r st0))) == m).
  { apply (fsum_single HA Hmf); [exact Hlayer | lia]. }
  assert (En : n == m).
  { apply (fsum_single HA Hmf); [| exact Hact].
    apply (single_entry Hm0); assumption. }
  unfold Rounded.fdiv.
  destruct (is_zero_spec n) as [E |_]; [rewrite En in E; contradiction |].
  unfold Rounded.fmul, Rounded.fadd, Rounded.fin. eexists. split; [reflexivity |].
  assert (Ew : rnd A (fsum A (map (fun x => rnd A (Rounded.of_int A x * m))
                                  (Rounded.pattern_of (Rounded.r st0))) / n) == 1).
  { transitivity (rnd A 1); [apply (rnd_morph HA) | apply (rnd_one HA)].
    rewrite Es, En. apply Qmult_inv_r, Hm0. }
  transitivity (rnd A 1); [apply (rnd_morph HA) | apply (rnd_one HA)].
  rewrite Qplus_0_l.
  transitivity (rnd A 1); [apply (rnd_morph HA) | apply (rnd_one HA)].
  rewrite Ew. reflexivity.
Qed.

Lemma single_category_is_one_witness :
  ieee binary53
  /\ (exists q, Rounded.agreement binary53 (IntArray [0; 0; 100; 0; 0]%Z)
                = Ok (Rounded.Fin q) /\ q == 1)
  /\ Rounded._pattern_agreement binary53 [1]%Z = Ok (Rounded.Fin 1).
Proof.
  split; [exact binary53_ieee |]. split.
  - apply (proj1 (single_category_is_one binary53_ieee)).
    + simpl. lia.
    + repeat constructor; lia.
    + reflexivity.
  - apply (proj2 (single_category_is_one binary53_ieee) [1]%Z 1%Z Rounded.NaN);
      reflexivity.
Defined.

(** C5, as the code has it: multiplying every count by a positive integer
    [c] does not change what [agreement] returns or raises as long as the
    multiplied counts add up to 2^53 at most.  Up to there every count, every
    layer and every sum is a whole number that is converted and added
    without rounding, and the weight of a layer is the rounded quotient of
    two whole numbers, which a common factor does not change. *)
Theorem scale_invariance_below_2_53 (A : arithmetic) (c : Z) (l : list Z) :
  ieee A -> (0 < c)%Z -> (c * np_sum l <= 2 ^ 53)%Z ->
  Rounded.agreement A (IntArray (map (Z.mul c) l))
  = Rounded.agreement A (IntArray l).
Proof.
  intros HA Hc Hs.
  unfold Rounded.agreement, Rounded.agreement_run. simpl len.
  rewrite length_map.
  destruct (Nat.ltb_spec (length l) 3) as [| Hk]; [reflexivity |].
  rewrite (np_min_scale Hc). destruct (np_min l) as [mn |] eqn:E; [| reflexivity].
  simpl option_map. cbv iota.
  replace (c * mn <? 0)%Z with (mn <? 0)%Z
    by (destruct (Z.ltb_spec mn 0), (Z.ltb_spec (c * mn) 0); auto; nia).
  destruct (mn <? 0)%Z eqn:Es; [reflexivity |].
  apply (np_min_sign _ E) in Es. pose proof (np_sum_nonneg Es) as H0.
  apply (@loop_scaled A HA c Hc _ _ (np_sum l)).
  - apply (fsum_copy HA Es). nia.
  - rewrite <- (np_sum_scale c l). apply (fsum_copy HA).
    + apply (nonneg_scale Hc), Es.
    + rewrite (np_sum_scale c l). exact Hs.
  - unfold scaled. simpl. repeat split. exists l. repeat split; try assumption.
    intros ->. simpl in Hk. lia.
Qed.

Lemma scale_invariance_below_2_53_witness :
  ieee binary53 /\ (0 < 5)%Z /\ (5 * np_sum [3; 1; 0; 2]%Z <= 2 ^ 53)%Z
  /\ Rounded.agreement binary53 (IntArray (map (Z.mul 5) [3; 1; 0; 2]%Z))
     = Rounded.agreement binary53 (IntArray [3; 1; 0; 2]%Z).
Proof.
  assert (Hc : (0 < 5)%Z) by lia.
  assert (Hs : (5 * np_sum [3; 1; 0; 2]%Z <= 2 ^ 53)%Z) by (vm_compute; discriminate).
  split; [exact binary53_ieee |]. split; [exact Hc |]. split; [exact Hs |].
  exact (scale_invariance_below_2_53 [3; 1; 0; 2]%Z binary53_ieee Hc Hs).
Defined.

(** C7, as the code has it: [agreement] raises exactly when the input
    violates a precondition, and what it raises is a [ValueError] in each of
    the three cases, which only the message tells apart: on a length below
    3, checked first; on an element type that is not an integer type,
    checked next on the type and not on the values; on a negative element,
    checked last.  On an input that satisfies the three preconditions it
    returns a float. *)
Theorem agreement_validation (v : ndarray) :
  ((len v < 3)%nat ->
   F64.agreement v
  
    = Err (ValueError "Length of vector < 3, agreement A is not defined."))
  /\ ((3 <= len v)%nat -> ~ integral v ->
      F64.agreement v
    = Err (ValueError "Frequency vector must contain integers."))
  /\ ((3 <= len v)%nat -> integral v -> has_negative v ->
      F64.agreement v
     
    = Err (ValueError "Negative values found in frequency vector."))
  /\ (valid v -> exists f, F64.agreement v = Ok f)
  /\ ((exists e, F64.agreement v = Err e) <-> ~ valid v)
  /\ (forall e, F64.agreement v = Err e -> exists msg, e = ValueError msg).
Proof.
  unfold F64.agreement, valid, integral.
  destruct (Nat.ltb_spec (len v) 3) as [Hk | Hk].
  - split; [reflexivity |]. split; [lia |]. split; [lia |].
    split; [intros (H & _); lia |]. split.
    + split; [intros _ (H & _); lia | eauto].
    + intros e H. injection H as <-. eauto.
  - split; [lia |]. destruct v as [l | l]; simpl in *.
    + split; [intros _ H; destruct (H eq_refl) |].
      destruct (np_min l) as [mn |] eqn:E;
        [| destruct l; [simpl in Hk; lia | discriminate]].
      pose proof (np_min_sign _ E) as Hsign.
      rewrite nonneg_no_negative in Hsign.
      destruct (mn <? 0)%Z eqn:Es.
      * assert (Hneg : Exists (fun x => x < 0)%Z l).
        { destruct (Exists_dec (fun x => x < 0)%Z l) as [H | H]; [| exact H |].
          - intros x. destruct (Z_lt_dec x 0); auto.
          - apply Hsign in H. discriminate. }
        split; [reflexivity |]. split; [intros (_ & _ & H); contradiction |].
        split; [split; [intros _ (_ & _ & H); contradiction | eauto] |].
        intros e H. injection H as <-. eauto.
      * assert (Hn : ~ Exists (fun x => x < 0)%Z l) by (apply Hsign; reflexivity).
        split; [intros _ _ H; contradiction |].
        destruct (@f64_loop_returns (length (map F64.of_nonneg l))
                    (F64.np_sum_f (map F64.of_nonneg l))
                    {| F64.aa := 0%float; F64.r := map F64.of_nonneg l |})
          as (st' & El).
        { simpl. destruct l; [simpl in Hk; lia | discriminate]. }
        rewrite El. simpl. split; [eauto |]. split.
        -- split; [intros [e H]; discriminate | intros H; exfalso; apply H; auto].
        -- intros e H. discriminate.
    + split; [reflexivity |]. split; [intros _ H; discriminate |].
      split; [intros (_ & H & _); discriminate |]. split.
      * split; [intros _ (_ & H & _); discriminate | eauto].
      * intros e H. injection H as <-. eauto.
Qed.

(** C7 as stated fails: on a float vector of length 3 the code raises the
    [ValueError] of line 116, and no [TypeError]. *)
Lemma agreement_validation_counterexample :
  F64.agreement (FloatArray [21 # 2; 41 # 2; 30 # 1])
 
    = Err (ValueError "Frequency vector must contain integers.")
  /\ forall msg,
       F64.agreement (FloatArray [21 # 2; 41 # 2; 30 # 1]) <> Err (TypeError msg).
Proof. split; [reflexivity | intros msg; discriminate]. Qed.

(** C1 fails in the code: on the valid vector (7, 0, 0, 0, 0, 0, 0, 7)
    [agreement] returns -1.0000000000000002, a float below -1, where the
    docstring promises a value in the range [-1, 1].  The vector has one
    layer, of weight 14/14 = 1.0, so the result is what the helper returns
    on the pattern (1, 0, 0, 0, 0, 0, 0, 1): the quotient -42/36, the
    quotient 1/7, the difference and the product of line 61 are each
    rounded, and nothing brings the product back into the range. *)
Lemma agreement_leaves_range :
  F64.agreement (IntArray [7; 0; 0; 0; 0; 0; 0; 7]%Z)
  = Ok (-0x1.0000000000001p+0)%float
  /\ PrimFloat.leb (-1)%float (-0x1.0000000000001p+0)%float = false
  /\ F64._pattern_agreement [1; 0; 0; 0; 0; 0; 0; 1]%Z
     = Ok (-0x1.0000000000001p+0)%float.
Proof. repeat split; vm_compute; reflexivity. Qed.

(** C4 fails in the code: with 8 categories and one case at each end,
    [agreement] returns -1.0000000000000002, which is not -1.0, the value
    the docstring gives for perfect bimodal disagreement, and lies outside
    the range [-1, 1] of the docstring.  It is the rounding of line 61 that
    C1 meets. *)
Lemma bimodal_extremes_not_minus_one :
  poles 8 1 = [1; 0; 0; 0; 0; 0; 0; 1]%Z
  /\ F64.agreement (IntArray (poles 8 1)) = Ok (-0x1.0000000000001p+0)%float
  /\ F64.agreement (IntArray (poles 8 1)) <> Ok (-1)%float.
Proof.
  split; [reflexivity |].
  assert (E : F64.agreement (IntArray (poles 8 1))
              = Ok (-0x1.0000000000001p+0)%float) by (vm_compute; reflexivity).
  split; [exact E |]. rewrite E. intros H.
  apply (f_equal (rmap (fun f => PrimFloat.ltb f (-1)%float))) in H.
  vm_compute in H. discriminate.
Qed.

(** * Further properties of the code *)

(** ** The helper on any integer vector *)

Lemma raw_agreement_returns (p : list Z) :
  exists a, Exact.raw_agreement p = Ok a.
Proof.
  unfold Exact.raw_agreement.
  destruct (count_triplets p) as [tdu tu] eqn:E. unfold Exact.equation2.
  destruct (Z.eqb_spec (tu + tdu) 0) as [| H]; cbn [bind]; [eauto |].
  unfold Exact.int_truediv. apply (divisor_nonzero p E) in H.
  apply Z.eqb_neq in H. rewrite H. cbn [bind]. eauto.
Qed.

Lemma np_max_above (l : list Z) (mx b : Z) :
  np_max l = Some mx -> ((b < mx)%Z <-> Exists (fun x => b < x)%Z l).
Proof.
  intros E. apply np_max_spec in E as [Hle Hin]. rewrite Exists_exists. split.
  - intros H. exists mx. auto.
  - intros (x & Hx & Hb). rewrite Forall_forall in Hle.
    specialize (Hle x Hx). simpl in Hle. lia.
Qed.

Lemma helper_cases (p : list Z) :
  (p = [] /\ Exact._pattern_agreement p = Err ZeroSizeError)
  \/ (Exists (fun x => 1 < x)%Z p
      /\ Exact._pattern_agreement p = Err InvalidPatternError)
  \/ (p <> [] /\ Forall (fun x => x <= 1)%Z p
      /\ exists a, Exact._pattern_agreement p = Ok a).
Proof.
  unfold Exact._pattern_agreement. destruct p as [|x p]; [left; auto |].
  right. destruct (np_max (x :: p)) as [mx |] eqn:E; [| discriminate].
  pose proof (@np_max_above (x :: p) mx 1%Z E) as Habove.
  destruct (Z.gtb_spec mx 1) as [Hgt | Hle].
  - left. split; [apply Habove; lia | reflexivity].
  - right. split; [discriminate |]. split.
    + apply np_max_spec in E as [H _]. revert H. apply Forall_impl.
      intros y Hy. lia.
    + destruct (raw_agreement_returns (x :: p)) as [a Ea]. rewrite Ea.
      cbn [bind]. eauto.
Qed.

Lemma above_one_not_all_below (p : list Z) :
  Exists (fun x => 1 < x)%Z p -> Forall (fun x => x <= 1)%Z p -> False.
Proof.
  intros He Hf. apply Exists_exists in He as (x & Hx & H1).
  rewrite Forall_forall in Hf. specialize (Hf x Hx). simpl in Hf. lia.
Qed.

(** X1: what [_pattern_agreement] raises, on any integer vector.  It
    raises NumPy's empty-reduction error exactly on the empty vector and its
    own error exactly when an entry is above 1; on every other vector,
    vectors with negative entries included, it returns a value.  It raises
    nothing else: the division of two integers of line 58 never divides by
    zero. *)
Theorem helper_error_contract (p : list Z) :
  (Exact._pattern_agreement p = Err ZeroSizeError <-> p = [])
  /\ (Exact._pattern_agreement p = Err InvalidPatternError
      <-> Exists (fun x => 1 < x)%Z p)
  /\ ((exists a, Exact._pattern_agreement p = Ok a)
      <-> p <> [] /\ Forall (fun x => x <= 1)%Z p)
  /\ (forall e, Exact._pattern_agreement p = Err e ->
                e = ZeroSizeError \/ e = InvalidPatternError).
Proof.
  destruct (helper_cases p) as [[Hp E] | [[Hx E] | (Hp & Hf & a & E)]];
    rewrite E.
  - subst p. split; [tauto |]. split.
    + split; [discriminate | inversion 1].
    + split; [| intros e H; injection H as <-; auto].
      split; [intros [a H]; discriminate | intros [H _]; congruence].
  - split.
    + split; [discriminate | intros ->; inversion Hx].
    + split; [tauto |]. split; [| intros e H; injection H as <-; auto].
      split; [intros [a H]; discriminate |].
      intros [_ Hf]. destruct (above_one_not_all_below Hx Hf).
  - split.
    + split; [discriminate | intros H; contradiction].
    + split.
      * split; [discriminate |].
        intros Hx. destruct (above_one_not_all_below Hx Hf).
      * split; [split; eauto | discriminate].
Qed.

(** X2: on a vector of 0s and 1s with one or two entries, which
    [agreement] never passes, the helper returns 1 when exactly one entry is
    1 and 0 otherwise; with one entry the formula is 0 * (1 - 0/0) or
    0 * (1 + 1/0), and the two edge cases decide. *)
Theorem helper_short_patterns (p : list Z) :
  binary p -> (1 <= length p <= 2)%nat ->
  Exact._pattern_agreement p
  = Ok (if (np_sum p =? 1)%Z then Exact.Fin 1 else Exact.Fin 0).
Proof.
  intros Hb Hl. destruct p as [|a [|b [|c p]]]; simpl in Hl; try lia.
  - apply Forall_cons_iff in Hb as [[-> | ->] _]; vm_compute; reflexivity.
  - apply Forall_cons_iff in Hb as [Ha Hb].
    apply Forall_cons_iff in Hb as [Hb _].
    destruct Ha as [-> | ->], Hb as [-> | ->]; vm_compute; reflexivity.
Qed.

Lemma helper_short_patterns_witness :
  binary [0; 1]%Z /\ (1 <= length [0; 1]%Z <= 2)%nat
  /\ Exact._pattern_agreement [0; 1]%Z
     = Ok (if (np_sum [0; 1]%Z =? 1)%Z then Exact.Fin 1 else Exact.Fin 0).
Proof.
  assert (Hb : binary [0; 1]%Z) by (repeat constructor; auto).
  assert (Hl : (1 <= length [0; 1]%Z <= 2)%nat) by (simpl; lia).
  split; [exact Hb |]. split; [exact Hl |].
  exact (helper_short_patterns Hb Hl).
Defined.

(** ** Reading the categories from the other end *)

Lemma zsum_permutation {A : Type} (f : A -> Z) (l l' : list A) :
  Permutation l l' -> zsum f l = zsum f l'.
Proof. induction 1; simpl; lia. Qed.

Lemma item_rev (p : list Z) (i : nat) :
  (i < length p)%nat -> item (rev p) i = item p (length p - 1 - i).
Proof.
  intros Hi. unfold item. rewrite rev_nth by assumption. f_equal. lia.
Qed.

Lemma mirror_in_triples (k : nat) (t : nat * nat * nat) :
  In t (triples k) -> In (mirror k t) (triples k) /\ mirror k (mirror k t) = t.
Proof.
  destruct t as [[i j] m]. intros H. apply in_triples in H. split.
  - apply in_triples. lia.
  - simpl. repeat f_equal; lia.
Qed.

Lemma mirror_permutation (k : nat) :
  Permutation (map (mirror k) (triples k)) (triples k).
Proof.
  apply NoDup_Permutation.
  - apply NoDup_map_NoDup_ForallPairs; [| apply NoDup_triples].
    intros a b Ha Hb E.
    rewrite <- (proj2 (mirror_in_triples k a Ha)),
            <- (proj2 (mirror_in_triples k b Hb)), E.
    reflexivity.
  - apply NoDup_triples.
  - intros t. rewrite in_map_iff. split.
    + intros (t' & <- & Ht'). apply mirror_in_triples, Ht'.
    + intros Ht. exists (mirror k t). split; apply mirror_in_triples, Ht.
Qed.

(** Counting with a test on the mirrored triple is counting with the
    test. *)
Lemma count_mirror (k : nat) (P Q : nat * nat * nat -> bool) :
  (forall t, In t (triples k) -> P t = Q (mirror k t)) ->
  length (filter P (triples k)) = length (filter Q (triples k)).
Proof.
  intros H. apply Nat2Z.inj. rewrite !length_filter_zsum.
  rewrite <- (zsum_permutation (fun t => if Q t then 1 else 0)%Z
                               (mirror_permutation k)), zsum_map.
  apply zsum_ext_in. intros t Ht. rewrite (H t Ht). reflexivity.
Qed.

Lemma matches_rev (p : list Z) (a b c : Z) (t : nat * nat * nat) :
  In t (triples (length p)) ->
  matches (rev p) a b c t = matches p c b a (mirror (length p) t).
Proof.
  destruct t as [[i j] m]. intros H. apply in_triples in H.
  unfold matches, mirror. rewrite !item_rev by lia.
  destruct (item p (length p - 1 - i) =? a)%Z,
           (item p (length p - 1 - j) =? b)%Z,
           (item p (length p - 1 - m) =? c)%Z; reflexivity.
Qed.

(** The counters do not depend on the end from which the categories are
    numbered: (1,0,1) reads the same both ways, and (1,1,0) and (0,1,1) are
    each other's mirror image and are counted together. *)
Lemma count_triplets_rev (p : list Z) : count_triplets (rev p) = count_triplets p.
Proof.
  rewrite !count_triplets_spec. unfold spec_T_du, spec_T_u.
  rewrite length_rev. f_equal; f_equal.
  - apply count_mirror. intros t Ht. apply matches_rev, Ht.
  - apply count_mirror. intros t Ht.
    rewrite !matches_rev by exact Ht. apply orb_comm.
Qed.

Lemma np_sum_rev (l : list Z) : np_sum (rev l) = np_sum l.
Proof.
  induction l as [|x l IH]; [reflexivity |].
  simpl rev. rewrite np_sum_app, IH, !np_sum_cons, np_sum_nil. lia.
Qed.

Lemma np_max_rev (l : list Z) : np_max (rev l) = np_max l.
Proof.
  destruct l as [|x l]; [reflexivity |].
  destruct (@np_max_some (rev (x :: l))) as (a & Ea).
  { intros E. apply (f_equal (@length Z)) in E.
    rewrite length_rev in E. discriminate. }
  destruct (@np_max_some (x :: l)) as (b & Eb); [discriminate |].
  rewrite Ea, Eb. f_equal.
  apply np_max_spec in Ea as [Ha Ia]. apply np_max_spec in Eb as [Hb Ib].
  apply in_rev in Ia. rewrite Forall_forall in Ha, Hb.
  specialize (Hb a Ia). specialize (Ha b (proj1 (in_rev _ _) Ib)).
  simpl in Ha, Hb. lia.
Qed.

Lemma raw_agreement_rev (p : list Z) :
  Exact.raw_agreement (rev p) = Exact.raw_agreement p.
Proof.
  unfold Exact.raw_agreement.
  rewrite count_triplets_rev, np_sum_rev, length_rev. reflexivity.
Qed.

(** X3: the helper returns the same value, or raises the same error, on a
    vector and on the vector reversed: the two unimodal patterns are mirror
    images and share a counter, and the bimodal pattern is its own mirror
    image. *)
Theorem helper_reversal (p : list Z) :
  Exact._pattern_agreement (rev p) = Exact._pattern_agreement p
  /\ count_triplets (rev p) = count_triplets p.
Proof.
  split; [| apply count_triplets_rev].
  unfold Exact._pattern_agreement.
  rewrite np_max_rev, raw_agreement_rev, np_sum_rev. reflexivity.
Qed.

(** ** Exceptions in binary64 *)

(** X11: executed in binary64, [agreement] raises exactly what it raises
    in exact arithmetic, that is the error of the first precondition that
    fails, and it returns a float on every valid input: rounding never
    leads to an exception in the loop or in the helper. *)
Theorem binary64_same_exceptions (v : ndarray) :
  (forall e, F64.agreement v = Err e <-> Exact.agreement v = Err e)
  /\ ((exists f, F64.agreement v = Ok f) <-> valid v).
Proof.
  assert (Hcases :
    (exists e, F64.agreement v = Err e /\ Exact.agreement v = Err e /\ ~ valid v)
    \/ ((exists f, F64.agreement v = Ok f)
        /\ (exists x, Exact.agreement v = Ok x) /\ valid v)).
  { unfold F64.agreement, Exact.agreement, Exact.agreement_run, valid, integral.
    destruct (Nat.ltb_spec (len v) 3) as [Hk | Hk].
    - left. eexists. repeat split. intros (H & _). lia.
    - destruct v as [l | l]; simpl in *.
      + destruct (np_min l) as [mn |] eqn:E.
        * destruct (mn <? 0)%Z eqn:Es.
          -- left. eexists. repeat split.
             intros (_ & _ & Hneg). rewrite <- nonneg_no_negative in Hneg.
             apply (np_min_sign _ E) in Hneg. congruence.
          -- right. apply (np_min_sign _ E) in Es.
             destruct (@f64_loop_returns (length (map F64.of_nonneg l))
                         (F64.np_sum_f (map F64.of_nonneg l))
                         {| F64.aa := 0%float; F64.r := map F64.of_nonneg l |})
               as (st' & El).
             { simpl. destruct l; [simpl in Hk; lia | discriminate]. }
             rewrite El. split; [simpl; eauto |]. split.
             ++ destruct (agreement_run_runs Hk Es) as (i & st2 & E2 & _).
                unfold Exact.agreement_run in E2. simpl len in E2.
                destruct (Nat.ltb_spec (length l) 3) as [| _]; [lia |].
                rewrite E, (proj2 (np_min_sign _ E) Es) in E2.
                rewrite E2. simpl. eauto.
             ++ repeat split; [exact Hk |]. apply nonneg_no_negative, Es.
        * destruct l; [simpl in Hk; lia | discriminate].
      + left. eexists. repeat split. intros (_ & H & _). discriminate. }
  destruct Hcases as [(e0 & Ef & Ee & Hv) | ((f & Ef) & (x & Ee) & Hv)];
    rewrite Ef, Ee.
  - split; [intros e; split; intros H; injection H as <-; reflexivity |].
    split; [intros [f H]; discriminate | contradiction].
  - split; [intros e; split; discriminate |]. split; [auto | eauto].
Qed.

Lemma f64_zero_pattern (l : list Z) :
  all_zero l -> F64.pattern_of (map F64.of_nonneg l) = map (fun _ => 0%Z) l.
Proof.
  induction 1 as [|x l Hx _ IH]; [reflexivity |].
  subst x. simpl. rewrite <- IH. reflexivity.
Qed.

(** X12: in binary64 too, an all-zero vector of length at least 3 makes
    [agreement] return 0.0: the first pass breaks before the weight 0/0
    is computed. *)
Theorem binary64_all_zero (l : list Z) :
  (3 <= length l)%nat -> all_zero l ->
  F64.agreement (IntArray l) = Ok 0%float.
Proof.
  intros Hk Hz. pose proof (all_zero_nonneg Hz) as Hn.
  unfold F64.agreement. simpl len.
  destruct (Nat.ltb_spec (length l) 3) as [| _]; [lia |].
  destruct (@np_min_some l) as (mn & E).
  { intros ->. simpl in Hk. lia. }
  rewrite E, (proj2 (np_min_sign _ E) Hn). rewrite length_map.
  destruct (length l) as [|k] eqn:El; [lia |].
  simpl F64.loop. unfold F64.body. cbn [F64.r].
  rewrite (f64_zero_pattern Hz).
  destruct (@np_max_some (map (fun _ : Z => 0%Z) l)) as (mx & Emx).
  { destruct l; [discriminate | discriminate]. }
  rewrite Emx. apply np_max_spec in Emx as [_ Hin].
  apply in_map_iff in Hin as (y & <- & _). reflexivity.
Qed.

Lemma binary64_all_zero_witness :
  (3 <= length [0; 0; 0; 0]%Z)%nat /\ all_zero [0; 0; 0; 0]%Z
  /\ F64.agreement (IntArray [0; 0; 0; 0]%Z) = Ok 0%float.
Proof.
  assert (Hk : (3 <= length [0; 0; 0; 0]%Z)%nat) by (simpl; lia).
  assert (Hz : all_zero [0; 0; 0; 0]%Z) by (repeat constructor).
  split; [exact Hk |]. split; [exact Hz |].
  exact (binary64_all_zero Hk Hz).
Defined.

(** * Evaluations *)

(** The examples of the docstring and of the tests, in both semantics. *)

Example exact_docstring_survey :
  Exact.agreement (IntArray [30; 40; 210; 130; 530; 50; 10]%Z)
  = Ok (Exact.Fin (917 # 1500)).
Proof. vm_compute. reflexivity. Qed.

Example exact_docstring_unanimous :
  Exact.agreement (IntArray [0; 0; 100; 0; 0]%Z) = Ok (Exact.Fin 1).
Proof. vm_compute. reflexivity. Qed.

Example exact_docstring_bimodal :
  Exact.agreement (IntArray [50; 0; 0; 0; 50]%Z) = Ok (Exact.Fin (-1)).
Proof. vm_compute. reflexivity. Qed.

Example binary64_docstring_unanimous :
  F64.agreement (IntArray [0; 0; 100; 0; 0]%Z) = Ok 1%float.
Proof. vm_compute. reflexivity. Qed.

Example binary64_docstring_bimodal :
  F64.agreement (IntArray [50; 0; 0; 0; 50]%Z) = Ok (-1)%float.
Proof. vm_compute. reflexivity. Qed.

Example binary64_all_zeros :
  F64.agreement (IntArray [0; 0; 0; 0; 0]%Z) = Ok 0%float.
Proof. vm_compute. reflexivity. Qed.

Example test_length_2_raises :
  Exact.agreement (IntArray [10; 20]%Z)
    = Err (ValueError "Length of vector < 3, agreement A is not defined.")
  /\ F64.agreement (IntArray [10; 20]%Z)
    = Err (ValueError "Length of vector < 3, agreement A is not defined.").
Proof. split; reflexivity. Qed.

Example test_empty_raises :
  Exact.agreement (FloatArray [])
    = Err (ValueError "Length of vector < 3, agreement A is not defined.")
  /\ F64.agreement (FloatArray [])
    = Err (ValueError "Length of vector < 3, agreement A is not defined.").
Proof. split; reflexivity. Qed.

Example test_negative_values_raises :
  Exact.agreement (IntArray [10; -5; 20]%Z)
    = Err (ValueError "Negative values found in frequency vector.")
  /\ F64.agreement (IntArray [10; -5; 20]%Z)
    = Err (ValueError "Negative values found in frequency vector.").
Proof. split; reflexivity. Qed.

Example test_float_values_raises :
  Exact.agreement (FloatArray [21 # 2; 41 # 2; 30 # 1])
    = Err (ValueError "Frequency vector must contain integers.")
  /\ F64.agreement (FloatArray [21 # 2; 41 # 2; 30 # 1])
    = Err (ValueError "Frequency vector must contain integers.").
Proof. split; reflexivity. Qed.

(** The type is checked before the sign, and the length before both. *)
Example dtype_checked_before_sign :
  Exact.agreement (FloatArray [- (3 # 2); 2 # 1; 3 # 1])
    = Err (ValueError "Frequency vector must contain integers.")
  /\ Exact.agreement (FloatArray [- (3 # 2); 2 # 1])
    = Err (ValueError "Length of vector < 3, agreement A is not defined.")
  /\ Exact.agreement (IntArray [-1; 2]%Z)
    = Err (ValueError "Length of vector < 3, agreement A is not defined.").
Proof. repeat split; reflexivity. Qed.

(** The helper outside the calls of [agreement]: an entry above 1 raises;
    with a single category the formula divides 0 by 0 and the two edge
    cases apply. *)
Example helper_rejects_counts :
  Exact._pattern_agreement [0; 2; 1]%Z = Err InvalidPatternError
  /\ F64._pattern_agreement [0; 2; 1]%Z = Err InvalidPatternError.
Proof. split; reflexivity. Qed.

Example helper_single_category :
  Exact.raw_agreement [1]%Z = Ok Exact.NaN
  /\ Exact._pattern_agreement [1]%Z = Ok (Exact.Fin 1)
  /\ Exact.raw_agreement [0]%Z = Ok Exact.NaN
  /\ Exact._pattern_agreement [0]%Z = Ok (Exact.Fin 0).
Proof. repeat split; vm_compute; reflexivity. Qed.

Example helper_single_category_binary64 :
  rmap PrimFloat.is_nan (F64.raw_agreement [1]%Z) = Ok true
  /\ F64._pattern_agreement [1]%Z = Ok 1%float
  /\ rmap PrimFloat.is_nan (F64.raw_agreement [0]%Z) = Ok true
  /\ F64._pattern_agreement [0]%Z = Ok 0%float.
Proof. repeat split; vm_compute; reflexivity. Qed.

(** The weight of a layer of an all-zero vector would be 0/0. *)
Example zero_by_zero :
  Exact.fdiv (Exact.of_int 0) (Exact.of_int 0) = Exact.NaN.
Proof. reflexivity. Qed.

(** Both semantics count the same triplets: here 2 bimodal ones,
    (0,2,3) and (1,2,3), and 1 unimodal one, (0,1,2). *)
Example counting_1101 :
  count_triplets [1; 1; 0; 1]%Z = (2, 1)%Z
  /\ spec_T_du [1; 1; 0; 1]%Z = 2%Z /\ spec_T_u [1; 1; 0; 1]%Z = 1%Z.
Proof. repeat split; reflexivity. Qed.

(** The rounding of the helper in binary64, by length of the pattern
    1,0,...,0,1: exact at 5 categories, below -1 at 8, above -1 at 13. *)
Example binary64_poles_by_length :
  F64._pattern_agreement (poles 5 1) = Ok (-1)%float
  /\ rmap (fun f => PrimFloat.ltb f (-1)%float)
          (F64._pattern_agreement (poles 8 1)) = Ok true
  /\ rmap (fun f => PrimFloat.ltb (-1)%float f)
          (F64._pattern_agreement (poles 13 1)) = Ok true.
Proof. repeat split; vm_compute; reflexivity. Qed.

(** The rounded semantics with 53 significant bits computes the floats
    of the binary64 semantics. *)
Example binary53_agrees_docstring :
  rmap float_value (F64.agreement (IntArray [30; 40; 210; 130; 530; 50; 10]%Z))
  = rmap finite_value
         (Rounded.agreement binary53 (IntArray [30; 40; 210; 130; 530; 50; 10]%Z))
  /\ rmap float_value (F64.agreement (IntArray [0; 0; 100; 0; 0]%Z))
     = rmap finite_value
            (Rounded.agreement binary53 (IntArray [0; 0; 100; 0; 0]%Z))
  /\ rmap float_value (F64.agreement (IntArray [50; 0; 0; 0; 50]%Z))
     = rmap finite_value
            (Rounded.agreement binary53 (IntArray [50; 0; 0; 0; 50]%Z)).
Proof. repeat split; vm_compute; reflexivity. Qed.

Example binary53_agrees_below_minus_one :
  rmap finite_value
       (Rounded.agreement binary53 (IntArray [7; 0; 0; 0; 0; 0; 0; 7]%Z))
  = Ok (Some (- (4503599627370497 # 4503599627370496)))
  /\ rmap float_value (F64.agreement (IntArray [7; 0; 0; 0; 0; 0; 0; 7]%Z))
     = Ok (Some (- (4503599627370497 # 4503599627370496))).
Proof. split; vm_compute; reflexivity. Qed.

Example binary53_agrees_large_counts :
  rmap float_value (F64.agreement (IntArray [9007199254740993; 1; 0]%Z))
  = rmap finite_value
         (Rounded.agreement binary53 (IntArray [9007199254740993; 1; 0]%Z))
  /\ rmap float_value (F64.agreement (IntArray [27021597764222979; 3; 0]%Z))
     = rmap finite_value
            (Rounded.agreement binary53 (IntArray [27021597764222979; 3; 0]%Z))
  /\ rmap float_value
          (F64.agreement (IntArray [0; 0; 0; 0; 0; 1; 1; 9007199254740992]%Z))
     = rmap finite_value
            (Rounded.agreement binary53
               (IntArray [0; 0; 0; 0; 0; 1; 1; 9007199254740992]%Z))
  /\ rmap float_value
          (F64.agreement (IntArray [3; 1; 4; 1; 5; 9; 2; 6; 5; 3; 5]%Z))
     = rmap finite_value
            (Rounded.agreement binary53
               (IntArray [3; 1; 4; 1; 5; 9; 2; 6; 5; 3; 5]%Z)).
Proof. repeat split; vm_compute; reflexivity. Qed.
